(** * Pokemon card flip: the fetch service and the card controller

    A shallow embedding of [src/js/pokemon.js] (the PokeAPI service) and of
    the main application script (the card grid controller), followed by the
    properties of the specification that were checked against them.

    Conventions of the model:
    - a JavaScript value coming out of [response.json()] is a [value]: JSON
      data plus [undefined], which property access on a missing key produces;
    - an expression that may throw evaluates to a [result]; a promise that has
      settled is a [settled]; [await] and [async] convert between the two;
    - text is ASCII ([string] of the standard library, one character per
      UTF-16 code unit): the API serves lower-case ASCII identifiers, and
      [toUpperCase] is modelled on that range only; the properties of the
      capitalisation are stated for ASCII text ([ascii_only]);
    - numbers are rationals plus [NaN]. The product from which the random
      identifier is computed is rounded as an IEEE 754 double is ([Double]);
      the quotients by ten are kept exact, and the infinities are not
      modelled;
    - the coercions of the host (number from text, text from number, the
      JSON printer) are an interface, [Runtime], that every definition takes
      as a parameter. *)

From Stdlib Require Import Ascii String QArith Qround Qpower Qabs Lqa.
From stdpp Require Import base decidable option list strings numbers gmap pretty.
From Stdlib Require Import Permutation.

Set Warnings "-register-all".

Local Open Scope Z_scope.
Local Open Scope string_scope.
Local Open Scope list_scope.

(** ** JavaScript values *)

Inductive number : Type :=
| Num (q : Q)
| NaN.

Inductive value : Type :=
| VUndefined
| VNull
| VBool (b : bool)
| VNum (n : number)
| VStr (s : string)
| VArr (items : list value)
| VObj (props : list (string * value)).

(** Exceptions, by constructor name, with their message. *)
Inductive exn : Type :=
| TypeError (message : string)
| Error (message : string)
| SyntaxError (message : string).

(** The completion of an expression: a value or a thrown exception. *)
Inductive result (A : Type) : Type :=
| Return (a : A)
| Throw (e : exn).
Arguments Return {A} a.
Arguments Throw {A} e.

Definition result_bind {A B} (r : result A) (k : A -> result B) : result B :=
  match r with
  | Return a => k a
  | Throw e => Throw e
  end.

Notation "x <- e ;; k" := (result_bind e (fun x => k))
  (at level 100, e at next level, right associativity, only parsing).

(** [try { body } catch (error) { handler }]. *)
Definition try_catch {A} (body : result A) (handler : exn -> result A) : result A :=
  match body with
  | Return a => Return a
  | Throw e => handler e
  end.

(** A settled promise. *)
Inductive settled (A : Type) : Type :=
| Fulfilled (a : A)
| Rejected (e : exn).
Arguments Fulfilled {A} a.
Arguments Rejected {A} e.

(** [await p] on a settled promise, and the promise an [async] body yields. *)
Definition await {A} (p : settled A) : result A :=
  match p with
  | Fulfilled a => Return a
  | Rejected e => Throw e
  end.

Definition async {A} (body : result A) : settled A :=
  match body with
  | Return a => Fulfilled a
  | Throw e => Rejected e
  end.

(** The host's coercions that the scripts rely on implicitly. *)
Class Runtime : Type := {
  (** [Number(s)] for a string *)
  StringToNumber : string -> number;
  (** [Number(o)] for an array or an object: [ToPrimitive] then [ToNumber] *)
  ObjectToNumber : value -> result number;
  (** [String(n)] for a number *)
  NumberToString : number -> string;
  (** [String(o)] for an array or an object *)
  ObjectToString : value -> result string;
  (** [JSON.stringify(o)] for an object *)
  JSON_stringify : value -> string;
}.

Section Values.
Context `{Runtime}.

Definition is_zero (q : Q) : bool := (Qnum q =? 0)%Z.

(** [ToBoolean]: the falsy values are [undefined], [null], [false], [0],
    [NaN] and the empty string. *)
Definition truthy (v : value) : bool :=
  match v with
  | VUndefined | VNull => false
  | VBool b => b
  | VNum (Num q) => negb (is_zero q)
  | VNum NaN => false
  | VStr s => negb (String.eqb s "")
  | VArr _ | VObj _ => true
  end.

(** [a || b] when [b] needs no evaluation of its own. *)
Definition js_or (a b : value) : value := if truthy a then a else b.

Definition nullish (v : value) : bool :=
  match v with
  | VUndefined | VNull => true
  | _ => false
  end.

Fixpoint assoc (k : string) (props : list (string * value)) : option value :=
  match props with
  | [] => None
  | (k', v) :: rest => if String.eqb k k' then Some v else assoc k rest
  end.

(** [v.k] (or [v[k]]) for a key [k] that no prototype defines, which is the
    case of every key the scripts read: a [TypeError] on [undefined] and
    [null], the own property of an object, [undefined] otherwise. *)
Definition get (v : value) (k : string) : result value :=
  match v with
  | VUndefined => Throw (TypeError ("Cannot read properties of undefined (reading '" +:+ k +:+ "')"))
  | VNull => Throw (TypeError ("Cannot read properties of null (reading '" +:+ k +:+ "')"))
  | VObj props => Return (default VUndefined (assoc k props))
  | VBool _ | VNum _ | VStr _ | VArr _ => Return VUndefined
  end.

(** [v === s] for a string [s]. *)
Definition strict_eq_string (v : value) (s : string) : bool :=
  match v with
  | VStr s' => String.eqb s' s
  | _ => false
  end.

Definition ToNumber (v : value) : result number :=
  match v with
  | VUndefined => Return NaN
  | VNull => Return (Num 0)
  | VBool b => Return (Num (if b then 1 else 0))
  | VNum n => Return n
  | VStr s => Return (StringToNumber s)
  | VArr _ | VObj _ => ObjectToNumber v
  end.

(** [v / d] for a non-zero literal [d]. *)
Definition js_div (v : value) (d : Q) : result number :=
  n <- ToNumber v ;;
  Return (match n with
          | Num q => Num (q / d)
          | NaN => NaN
          end).

Definition ToString (v : value) : result string :=
  match v with
  | VUndefined => Return "undefined"
  | VNull => Return "null"
  | VBool b => Return (if b then "true" else "false")
  | VNum n => Return (NumberToString n)
  | VStr s => Return s
  | VArr _ | VObj _ => ObjectToString v
  end.

End Values.

(** ** IEEE 754 doubles

    A finite double is a rational [m * 2^e] with [|m| < 2^53] and
    [e >= -1074]. An arithmetic operation on doubles gives the exact result
    rounded to the nearest double, ties going to the even significand. The
    results here stay below [2^1024], where there is no overflow. *)

Module Double.

(** The exponent [e] with [2^e <= |q| < 2^(e+1)], for [q] other than 0. *)
Definition binade (q : Q) : Z :=
  let e := Z.log2 (Z.abs (Qnum q)) - Z.log2 (Zpos (Qden q)) in
  if Qle_bool (Qpower 2 e) (Qabs q) then e else e - 1.

(** The exponent of the distance between the doubles around [q]: 53
    significant bits, and no exponent below that of the subnormals. *)
Definition ulp_exponent (q : Q) : Z := Z.max (binade q - 52) (-1074).

(** The nearest integer, the even one of two that are equally near. *)
Definition nearest_even (q : Q) : Z :=
  let f := Qfloor q in
  match (q - inject_Z f ?= 1 # 2)%Q with
  | Lt => f
  | Gt => f + 1
  | Eq => if Z.even f then f else f + 1
  end.

(** The double nearest to [q]. *)
Definition round (q : Q) : Q :=
  if Qeq_bool q 0 then 0%Q
  else
    let ulp := Qpower 2 (ulp_exponent q) in
    (inject_Z (nearest_even (q / ulp)) * ulp)%Q.

(** [q] is a double: rounding leaves it as it is. *)
Definition is_double (q : Q) : bool := Qeq_bool (round q) q.

(** [x * y] on doubles. *)
Definition mul (x y : Q) : Q := round (x * y).

End Double.

(** ** Strings *)

Fixpoint string_map (f : ascii -> ascii) (s : string) : string :=
  match s with
  | EmptyString => EmptyString
  | String c rest => String (f c) (string_map f rest)
  end.

Definition hyphen_to_space (c : ascii) : ascii :=
  if Ascii.eqb c "-" then " "%char else c.

(** [s.replace(/-/g, ' ')]: every hyphen becomes a space. *)
Definition replace_hyphens (s : string) : string :=
  string_map hyphen_to_space s.

(** [s.charAt(i)]: the one-character string at [i], or the empty string. *)
Definition charAt (s : string) (i : nat) : string :=
  match String.get i s with
  | Some c => String c EmptyString
  | None => EmptyString
  end.

(** The text is ASCII: every character code is below 128. On such text a
    character is one UTF-16 code unit, so that [length], [charAt] and
    [slice] count as JavaScript does. *)
Fixpoint ascii_only (s : string) : bool :=
  match s with
  | EmptyString => true
  | String c rest => (N_of_ascii c <? 128)%N && ascii_only rest
  end.

Definition upper_ascii (c : ascii) : ascii :=
  let n := N_of_ascii c in
  if ((97 <=? n) && (n <=? 122))%N then ascii_of_N (n - 32) else c.

(** [s.toUpperCase()] for ASCII text [s]: the letters a to z change, and
    nothing else does. Outside ASCII JavaScript follows the Unicode case
    tables, where a letter can become two; that is not modelled, and the
    properties of the capitalisation assume [ascii_only]. *)
Definition toUpperCase (s : string) : string := string_map upper_ascii s.

(** [s.slice(i)] for [i >= 0]: the text from position [i] on. *)
Fixpoint slice (s : string) (i : nat) {struct i} : string :=
  match i, s with
  | O, _ => s
  | S i', EmptyString => EmptyString
  | S i', String _ rest => slice rest i'
  end.

(** ** [Promise.all]

    The promises handed to [Promise.all] settle one at a time, in an order
    the scripts do not control. A [schedule] lists the indices of the
    promises in the order in which they settle; a promise that never settles
    does not occur in it. [Promise.all] keeps one slot per input promise,
    written by the reaction it registered for that index; it fulfils with the
    slots once none is empty, and rejects with the first rejection. *)

Module Promise.
Section All.
Context {A : Type}.

Record all_state : Type := {
  values : list (option A);
  outcome : option (settled (list A));
}.

(** The fulfilment value, once every slot is written. *)
Definition resolved (vs : list (option A)) : option (settled (list A)) :=
  Fulfilled <$> mapM id vs.

(** The promise of [Promise.all] settles once. *)
Definition latch (old new : option (settled (list A))) : option (settled (list A)) :=
  match old with
  | Some o => Some o
  | None => new
  end.

Definition all_start (promises : list (settled A)) : all_state :=
  let vs := replicate (length promises) None in
  {| values := vs; outcome := resolved vs |}.

(** Promise [i] settles: its reaction runs (at most once). *)
Definition all_settle (promises : list (settled A)) (st : all_state) (i : nat)
  : all_state :=
  match promises !! i with
  | None => st
  | Some (Fulfilled x) =>
      match values st !! i with
      | Some None =>
          let vs := <[i := Some x]> (values st) in
          {| values := vs; outcome := latch (outcome st) (resolved vs) |}
      | _ => st
      end
  | Some (Rejected e) =>
      {| values := values st;
         outcome := latch (outcome st) (Some (Rejected e)) |}
  end.

(** [Promise.all(promises)] under a schedule: [None] while it is pending. *)
Definition all (promises : list (settled A)) (schedule : list nat)
  : option (settled (list A)) :=
  outcome (foldl (all_settle promises) (all_start promises) schedule).

End All.
End Promise.

(** ** The PokeAPI service ([src/js/pokemon.js]) *)

Module PokemonService.

Definition API_BASE_URL : string := "https://pokeapi.co/api/v2".

Definition TOTAL_POKEMON : Z := 1008.

Record pokemon_stats : Type := {
  hp : value;
  attack : value;
  defense : value;
  speed : value;
}.

(** The object literal that [processPokemonData] returns. *)
Record pokemon : Type := {
  id : value;
  name : string;
  sprite : value;
  types : list value;
  height : number;
  weight : number;
  abilities : list string;
  stats : pokemon_stats;
  speciesUrl : value;
}.

(** What [fetch] resolves with: the fields of the response that the service
    reads, and the promise of its parsed body. *)
Record response : Type := {
  ok : bool;
  status : Z;
  json : settled value;
}.

(** What one call of [fetchRandomPokemon] observes of the outside: the draw
    of [Math.random()], a double in [0, 1), and the network's answer to a
    URL. *)
Record lookup_env : Type := {
  Math_random : Q;
  fetch : string -> settled response;
}.

Section Service.
Context `{Runtime}.

(** [string.replace(/-/g, ' ')] as a method call on an arbitrary value: only
    a string has the method (a JSON object has no callable property). *)
Definition call_replace (str : value) : result string :=
  match str with
  | VStr s => Return (replace_hyphens s)
  | VUndefined => Throw (TypeError "Cannot read properties of undefined (reading 'replace')")
  | VNull => Throw (TypeError "Cannot read properties of null (reading 'replace')")
  | _ => Throw (TypeError "string.replace is not a function")
  end.

Definition capitalizeFirstLetter (str : value) : result string :=
  fixedString <- call_replace str ;;
  Return (toUpperCase (charAt fixedString 0) +:+ slice fixedString 1).

(** [Array.prototype.find] over the elements, with a callback that may
    throw: the first element the callback accepts, else [undefined]. *)
Fixpoint find_first (pred : value -> result bool) (items : list value) : result value :=
  match items with
  | [] => Return VUndefined
  | s :: rest =>
      b <- pred s ;;
      if (b : bool) then Return s else find_first pred rest
  end.

Definition call_find (stats : value) (pred : value -> result bool) : result value :=
  match stats with
  | VArr items => find_first pred items
  | VUndefined => Throw (TypeError "Cannot read properties of undefined (reading 'find')")
  | VNull => Throw (TypeError "Cannot read properties of null (reading 'find')")
  | _ => Throw (TypeError "stats.find is not a function")
  end.

(** [Array.prototype.map] with a callback that may throw. *)
Fixpoint map_each {B} (f : value -> result B) (items : list value) : result (list B) :=
  match items with
  | [] => Return []
  | t :: rest =>
      b <- f t ;;
      bs <- map_each f rest ;;
      Return (b :: bs)
  end.

Definition call_map {B} (arr : value) (method : string) (f : value -> result B)
  : result (list B) :=
  match arr with
  | VArr items => map_each f items
  | VUndefined => Throw (TypeError "Cannot read properties of undefined (reading 'map')")
  | VNull => Throw (TypeError "Cannot read properties of null (reading 'map')")
  | _ => Throw (TypeError (method +:+ " is not a function"))
  end.

Definition findStat (stats : value) (statName : string) : result value :=
  stat <- call_find stats (fun s =>
            s_stat <- get s "stat" ;;
            s_stat_name <- get s_stat "name" ;;
            Return (strict_eq_string s_stat_name statName)) ;;
  (* stat?.base_stat || 0 *)
  base_stat <- (if nullish stat then Return VUndefined else get stat "base_stat") ;;
  Return (js_or base_stat (VNum (Num 0))).

(** [data.sprites.other['official-artwork'].front_default ||
     data.sprites.front_default]: the right operand is read only when the
    left one is falsy. *)
Definition sprite_of (data : value) : result value :=
  sprites <- get data "sprites" ;;
  other <- get sprites "other" ;;
  artwork <- get other "official-artwork" ;;
  artwork_front <- get artwork "front_default" ;;
  if truthy artwork_front then Return artwork_front
  else
    sprites' <- get data "sprites" ;;
    get sprites' "front_default".

Definition processPokemonData (data : value) : result pokemon :=
  data_id <- get data "id" ;;
  data_name <- get data "name" ;;
  name' <- capitalizeFirstLetter data_name ;;
  sprite' <- sprite_of data ;;
  data_types <- get data "types" ;;
  types' <- call_map data_types "data.types.map" (fun t =>
              t_type <- get t "type" ;; get t_type "name") ;;
  data_height <- get data "height" ;;
  height' <- js_div data_height 10 ;;
  data_weight <- get data "weight" ;;
  weight' <- js_div data_weight 10 ;;
  data_abilities <- get data "abilities" ;;
  abilities' <- call_map data_abilities "data.abilities.map" (fun a =>
                  a_ability <- get a "ability" ;;
                  a_ability_name <- get a_ability "name" ;;
                  capitalizeFirstLetter a_ability_name) ;;
  data_stats <- get data "stats" ;;
  hp' <- findStat data_stats "hp" ;;
  attack' <- findStat data_stats "attack" ;;
  defense' <- findStat data_stats "defense" ;;
  speed' <- findStat data_stats "speed" ;;
  data_species <- get data "species" ;;
  species_url <- get data_species "url" ;;
  Return {| id := data_id;
            name := name';
            sprite := sprite';
            types := types';
            height := height';
            weight := weight';
            abilities := abilities';
            stats := {| hp := hp'; attack := attack';
                        defense := defense'; speed := speed' |};
            speciesUrl := species_url |}.

Definition integer (z : Z) : number := Num (inject_Z z).

(** [Math.floor(Math.random() * TOTAL_POKEMON) + 1]: the product is a
    double, rounded from the exact product; its floor is an integer below
    [2^53], to which 1 is added exactly. *)
Definition randomId (env : lookup_env) : Z :=
  Qfloor (Double.mul (Math_random env) (inject_Z TOTAL_POKEMON)) + 1.

(** The template [`${API_BASE_URL}/pokemon/${randomId}`] *)
Definition pokemon_url (randomId : Z) : string :=
  API_BASE_URL +:+ "/pokemon/" +:+ NumberToString (integer randomId).

(** One lookup. [null] is [None]. The [catch] clause logs to the console,
    which changes nothing the scripts can observe, and returns [null]. *)
Definition fetchRandomPokemon (env : lookup_env) : settled (option pokemon) :=
  async
    (try_catch
       (let randomId := randomId env in
        response <- await (fetch env (pokemon_url randomId)) ;;
        _ <- (if negb (ok response)
              then Throw (Error ("HTTP error! status: "
                                   +:+ NumberToString (integer (status response))))
              else Return tt) ;;
        data <- await (json response) ;;
        processed <- processPokemonData data ;;
        Return (Some processed))
       (fun error => Return None)).

(** The loop [for (let i = 0; i < count; i++) promises.push(...)]: request
    [i] observes [world i]. [None] when the fuel runs out before the test
    fails. *)
Fixpoint push_requests (fuel : nat) (world : nat -> lookup_env) (count : Z)
    (i : nat) (promises : list (settled (option pokemon)))
  : option (list (settled (option pokemon))) :=
  if (Z.of_nat i <? count)%Z then
    match fuel with
    | O => None
    | S fuel' =>
        push_requests fuel' world count (S i)
          (promises ++ [fetchRandomPokemon (world i)])
    end
  else Some promises.

(** The batch. [None] is a promise that never settles. The [catch] clause
    logs and returns the empty array. *)
Definition fetchMultipleRandomPokemon (count : Z) (world : nat -> lookup_env)
    (schedule : list nat) : option (settled (list (option pokemon))) :=
  promises ← push_requests (Z.to_nat count) world count 0 [] ;
  joined ← Promise.all promises schedule ;
  Some (async
          (try_catch
             (pokemonList <- await joined ;;
              Return pokemonList)
             (fun error => Return []))).

End Service.
End PokemonService.

(** ** The page

    The document is a tree of elements. A reference to an attached element
    ([ref]) is its position in the tree, written from the element upwards:
    the index of the element among its parent's children, then the parent's
    reference; the root is [[]]. Two references to one element are equal,
    and a mutation through one is seen through the other. An element under
    construction, not yet attached, is a value. *)

Module DOM.

Inductive element : Type := Element {
  tagName : string;
  classList : list string;
  dataset : gmap string string;
  (** attributes and style properties, by name: [src], [alt], [style.width] *)
  properties : gmap string string;
  (** the element's own text *)
  textContent : string;
  children : list element;
}.

Definition ref : Type := list nat.

(** [document.createElement(tag)] *)
Definition createElement (tag : string) : element :=
  Element tag [] ∅ ∅ "" [].

Definition set_classList (cl : list string) (el : element) : element :=
  Element (tagName el) cl (dataset el) (properties el) (textContent el) (children el).

Definition set_dataset (k v : string) (el : element) : element :=
  Element (tagName el) (classList el) (<[k := v]> (dataset el)) (properties el)
    (textContent el) (children el).

Definition set_property (k v : string) (el : element) : element :=
  Element (tagName el) (classList el) (dataset el) (<[k := v]> (properties el))
    (textContent el) (children el).

Definition set_children (cs : list element) (el : element) : element :=
  Element (tagName el) (classList el) (dataset el) (properties el) (textContent el) cs.

(** [el.className = name] for a single class name *)
Definition set_className (name : string) (el : element) : element :=
  set_classList [name] el.

(** [el.textContent = s]: the content becomes the text [s] alone. *)
Definition set_textContent (s : string) (el : element) : element :=
  Element (tagName el) (classList el) (dataset el) (properties el) s [].

(** [el.innerHTML = ''] *)
Definition clear_innerHTML (el : element) : element := set_textContent "" el.

(** [parent.appendChild(child)] on elements under construction *)
Definition appendChild (child : element) (parent : element) : element :=
  set_children (children parent ++ [child]) parent.

Definition contains (token : string) (el : element) : bool :=
  bool_decide (token ∈ classList el).

Definition classList_add (token : string) (el : element) : element :=
  if contains token el then el else set_classList (classList el ++ [token]) el.

Definition classList_remove (token : string) (el : element) : element :=
  set_classList (filter (λ t, t ≠ token) (classList el)) el.

Definition classList_toggle (token : string) (el : element) : element :=
  if contains token el then classList_remove token el else classList_add token el.

(** The element at a position given from the root downwards. *)
Fixpoint descend (path : list nat) (el : element) : option element :=
  match path with
  | [] => Some el
  | i :: rest => children el !! i ≫= descend rest
  end.

Fixpoint alter_at (f : element -> element) (path : list nat) (el : element) : element :=
  match path with
  | [] => f el
  | i :: rest => set_children (alter (alter_at f rest) i (children el)) el
  end.

(** Dereferencing and mutating through a reference. *)
Definition deref (page : element) (r : ref) : option element :=
  descend (reverse r) page.

Definition update (f : element -> element) (r : ref) (page : element) : element :=
  alter_at f (reverse r) page.

(** [el.querySelector('.' + class)]: the first descendant of [el], in
    document order, that carries the class; the position is relative to
    [el], from [el] downwards. *)
Fixpoint first_with_class (class : string) (el : element) : option (list nat) :=
  match el with
  | Element _ _ _ _ _ cs =>
      (fix scan (cs : list element) (i : nat) : option (list nat) :=
         match cs with
         | [] => None
         | c :: rest =>
             if contains class c then Some [i]
             else match first_with_class class c with
                  | Some p => Some (i :: p)
                  | None => scan rest (S i)
                  end
         end) cs 0%nat
  end.

End DOM.

(** ** The card controller (the main application script) *)

Module App.
Import DOM PokemonService.

Definition CARD_COUNT : nat := 12.

Definition DEBUG_SHOW_SPINNER : bool := true.
Definition LOADING_DELAY : Z := 4000.

(** The page and the script's top-level bindings. [cardGrid] and
    [loadingSpinner] are the constants bound by [getElementById]; [cards] is
    the array of card elements; [listeners] records, per element, the event
    types for which [handleCardClick] is registered. *)
Record app_state : Type := {
  page : element;
  cardGrid : ref;
  loadingSpinner : ref;
  cards : list ref;
  listeners : list (ref * string);
}.

(** Statements: they read and write the state, and may throw. What was
    written before a throw stays written. *)
Definition M (A : Type) : Type := app_state -> result A * app_state.

Definition ret {A} (a : A) : M A := fun st => (Return a, st).

Definition bind {A B} (m : M A) (k : A -> M B) : M B :=
  fun st =>
    match m st with
    | (Return a, st') => k a st'
    | (Throw e, st') => (Throw e, st')
    end.

Notation "x <-- e ;; k" := (bind e (fun x => k))
  (at level 100, e at next level, right associativity, only parsing).
Notation "e ;;; k" := (bind e (fun _ => k))
  (at level 100, right associativity, only parsing).

Definition lift {A} (r : result A) : M A := fun st => (r, st).

Definition try_catch_M {A} (body : M A) (handler : exn -> M A) : M A :=
  fun st =>
    match body st with
    | (Return a, st') => (Return a, st')
    | (Throw e, st') => handler e st'
    end.

(** Iterations [i], [i + 1], ..., [i + n - 1] of a loop body. *)
Fixpoint for_upto (n : nat) (i : nat) (body : nat -> M unit) : M unit :=
  match n with
  | O => ret tt
  | S n' => body i ;;; for_upto n' (S i) body
  end.

Definition set_page (p : element) (st : app_state) : app_state :=
  {| page := p; cardGrid := cardGrid st; loadingSpinner := loadingSpinner st;
     cards := cards st; listeners := listeners st |}.

Definition set_cards (cs : list ref) (st : app_state) : app_state :=
  {| page := page st; cardGrid := cardGrid st; loadingSpinner := loadingSpinner st;
     cards := cs; listeners := listeners st |}.

Definition set_listeners (ls : list (ref * string)) (st : app_state) : app_state :=
  {| page := page st; cardGrid := cardGrid st; loadingSpinner := loadingSpinner st;
     cards := cards st; listeners := ls |}.

(** In the script a binding always holds an element. A reference that
    resolves to nothing is a state the script cannot be in; the model stops
    there with an exception, and the properties below show it is not raised. *)
Definition stale : exn := Error "reference to no element of the page".

(** Read, or mutate, the element behind a reference. *)
Definition read (r : ref) : M element :=
  fun st =>
    match deref (page st) r with
    | Some el => (Return el, st)
    | None => (Throw stale, st)
    end.

Definition mutate (r : ref) (f : element -> element) : M unit :=
  el <-- read r ;;
  fun st => (Return tt, set_page (update f r (page st)) st).

(** [parent.appendChild(child)] for an attached parent: the child becomes
    the last child, and its reference is returned. *)
Definition attach (parent : ref) (child : element) : M ref :=
  el <-- read parent ;;
  mutate parent (appendChild child) ;;;
  ret (length (children el) :: parent).

Definition querySelector (r : ref) (class : string) : M (option ref) :=
  el <-- read r ;;
  ret ((λ p, reverse p ++ r) <$> first_with_class class el).

Section Controller.
Context `{Runtime}.

Definition showLoading : M unit :=
  ld <-- (fun st => (Return (loadingSpinner st), st)) ;;
  mutate ld (classList_remove "hidden").

Definition hideLoading : M unit :=
  ld <-- (fun st => (Return (loadingSpinner st), st)) ;;
  mutate ld (classList_add "hidden").

Definition createCardElement (index : nat) : element :=
  let card := createElement "div" in
  let card := set_className "card" card in
  let card := set_dataset "index" (NumberToString (integer (Z.of_nat index))) card in
  let cardInner := createElement "div" in
  let cardInner := set_className "card-inner" cardInner in
  let cardFront := createElement "div" in
  let cardFront := set_className "card-front" cardFront in
  let cardBack := createElement "div" in
  let cardBack := set_className "card-back" cardBack in
  let img := createElement "img" in
  let img := set_property "src" "assets/pokeball.png" img in
  let img := set_property "alt" "Pokéball" img in
  let img := set_className "pokemon-img" img in
  let cardFront := appendChild img cardFront in
  let cardInner := appendChild cardFront cardInner in
  let cardInner := appendChild cardBack cardInner in
  let card := appendChild cardInner card in
  card.

Definition createCardElements : M unit :=
  grid <-- (fun st => (Return (cardGrid st), st)) ;;
  mutate grid clear_innerHTML ;;;
  (fun st => (Return tt, set_cards [] st)) ;;;
  for_upto CARD_COUNT 0 (fun i =>
    let card := createCardElement i in
    card_ref <-- attach grid card ;;
    fun st => (Return tt, set_cards (cards st ++ [card_ref]) st)).

(** The object literal as a value, for [JSON.stringify]. *)
Definition to_value (p : pokemon) : value :=
  VObj [("id", id p);
        ("name", VStr (name p));
        ("sprite", sprite p);
        ("types", VArr (types p));
        ("height", VNum (height p));
        ("weight", VNum (weight p));
        ("abilities", VArr (VStr <$> abilities p));
        ("stats", VObj [("hp", hp (stats p));
                        ("attack", attack (stats p));
                        ("defense", defense (stats p));
                        ("speed", speed (stats p))]);
        ("speciesUrl", speciesUrl p)].

(** [el.textContent = v]: [null] and [undefined] give the empty text. *)
Definition text_of (v : value) : result string :=
  if nullish v then Return "" else ToString v.

(** The [forEach] over [pokemon.types], on [typesDiv] under construction. *)
Fixpoint add_type_badges (types : list value) (typesDiv : element) : result element :=
  match types with
  | [] => Return typesDiv
  | type :: rest =>
      let typeBadge := createElement "span" in
      let typeBadge := set_className "type-badge" typeBadge in
      text <- text_of type ;;
      let typeBadge := set_textContent text typeBadge in
      add_type_badges rest (appendChild typeBadge typesDiv)
  end.

(** [card] is [cards[i]] and [pokemon] is [pokemonList[i]]: [None] is a
    falsy argument ([undefined] past the end of the array, or [null]). *)
Definition assignPokemonToCard (card : option ref) (pokemon : option pokemon) : M unit :=
  match card, pokemon with
  | Some card, Some pokemon =>
      mutate card (set_dataset "pokemon" (JSON_stringify (to_value pokemon))) ;;;
      found <-- querySelector card "card-back" ;;
      cardBack <-- lift (match found with
                         | Some r => Return r
                         | None => Throw (TypeError
                             "Cannot set properties of null (setting 'innerHTML')")
                         end) ;;
      mutate cardBack clear_innerHTML ;;;
      let imgWrapper := createElement "div" in
      let imgWrapper := set_property "style.width" "100%" imgWrapper in
      let imgWrapper := set_property "style.display" "flex" imgWrapper in
      let imgWrapper := set_property "style.justifyContent" "center" imgWrapper in
      let img := createElement "img" in
      src <-- lift (ToString (sprite pokemon)) ;;
      let img := set_property "src" src img in
      let img := set_property "alt" (name pokemon) img in
      let img := set_className "pokemon-img" img in
      let imgWrapper := appendChild img imgWrapper in
      attach cardBack imgWrapper ;;;
      let name_h2 := createElement "h2" in
      let name_h2 := set_textContent (name pokemon) name_h2 in
      attach cardBack name_h2 ;;;
      let typesDiv := createElement "div" in
      let typesDiv := set_className "pokemon-types" typesDiv in
      typesDiv <-- lift (add_type_badges (types pokemon) typesDiv) ;;
      attach cardBack typesDiv ;;;
      let statsText := createElement "p" in
      let statsText :=
        set_textContent
          ("Height: " +:+ NumberToString (height pokemon)
           +:+ "m | Weight: " +:+ NumberToString (weight pokemon)
           +:+ "kg | Abilities: "
           +:+ NumberToString (integer (Z.of_nat (length (abilities pokemon)))))
          statsText in
      attach cardBack statsText ;;;
      ret tt
  | _, _ => ret tt
  end.

(** The walk of [handleCardClick] up the ancestors of the event's target,
    to the nearest element with the class [card]; [None] is [null]. The
    [parentElement] of [i :: parent] is [parent], and the root has none. *)
Fixpoint nearest_card (page : element) (element : ref) : result (option ref) :=
  match deref page element with
  | None => Throw stale
  | Some el =>
      if contains "card" el then Return (Some element)
      else match element with
           | [] => Return None
           | _ :: parent => nearest_card page parent
           end
  end.

(** [event] is given by its [target]. *)
Definition handleCardClick (target : ref) : M unit :=
  element <-- (fun st => (nearest_card (page st) target, st)) ;;
  match element with
  | None => ret tt
  | Some element => mutate element (classList_toggle "flipped")
  end.

(** [cardGrid.addEventListener('click', handleCardClick)]: registering the
    same listener twice has no effect. *)
Definition setupEventListeners : M unit :=
  fun st =>
    let entry := (cardGrid st, "click") in
    (Return tt,
     if bool_decide (entry ∈ listeners st) then st
     else set_listeners (listeners st ++ [entry]) st).

(** [await new Promise(resolve => setTimeout(resolve, ms))]: time passes,
    the state does not change. *)
Definition pause (ms : Z) : M unit := ret tt.

(** The body of [fetchAndAssignPokemon] after the batch has settled. *)
Definition assign_batch (batch : settled (list (option pokemon))) : M unit :=
  try_catch_M
    (pokemonList <-- lift (await batch) ;;
     (if DEBUG_SHOW_SPINNER then pause LOADING_DELAY else ret tt) ;;;
     n <-- (fun st => (Return (length (cards st)), st)) ;;
     for_upto n 0 (fun i =>
       card <-- (fun st => (Return (cards st !! i), st)) ;;
       assignPokemonToCard card (mjoin (pokemonList !! i))))
    (fun error => ret tt).

(** [None] while the batch is pending. *)
Definition fetchAndAssignPokemon (world : nat -> lookup_env) (schedule : list nat)
  : app_state -> option (result unit * app_state) :=
  fun st =>
    batch ← fetchMultipleRandomPokemon (Z.of_nat CARD_COUNT) world schedule ;
    Some (assign_batch batch st).

Definition initApp (world : nat -> lookup_env) (schedule : list nat)
  : app_state -> option (result unit * app_state) :=
  fun st =>
    match (showLoading ;;;
           grid <-- (fun st => (Return (cardGrid st), st)) ;;
           mutate grid (classList_add "hidden") ;;;
           createCardElements) st with
    | (Throw e, st1) => Some (Throw e, st1)
    | (Return _, st1) =>
        '(r, st2) ← fetchAndAssignPokemon world schedule st1 ;
        match r with
        | Throw e => Some (Throw e, st2)
        | Return _ =>
            Some ((setupEventListeners ;;;
                   hideLoading ;;;
                   grid <-- (fun st => (Return (cardGrid st), st)) ;;
                   mutate grid (classList_remove "hidden")) st2)
        end
    end.

End Controller.
End App.

(** ** Reference definitions and sample data

    The specification's reading of some operations, to compare the code
    with, and the concrete inputs at which the properties are exercised. *)

Module Reference.
Import PokemonService.

(** The stat lookup as the specification words it, over a list of
    (stat name, base stat) pairs: the base stat of the first pair with the
    name, else 0. *)
Fixpoint base_stat_of (statName : string) (entries : list (string * Z)) : Z :=
  match entries with
  | [] => 0
  | (n, b) :: rest => if String.eqb n statName then b else base_stat_of statName rest
  end.

(** An element of the API's stat list carries the stat name [n] and the base
    stat [b]. *)
Definition stat_entry (v : value) (nb : string * Z) : Prop :=
  ∃ st, get v "stat" = Return st
      ∧ get st "name" = Return (VStr nb.1)
      ∧ get v "base_stat" = Return (VNum (integer nb.2)).

(** An element of the stat list in the API's layout. *)
Definition stat_json (n : string) (b : Z) : value :=
  VObj [("base_stat", VNum (integer b));
        ("effort", VNum (integer 0));
        ("stat", VObj [("name", VStr n);
                       ("url", VStr "https://pokeapi.co/api/v2/stat/")])].

(** A field reached by a chain of keys, when it is present and not [null]. *)
Fixpoint dig (v : value) (keys : list string) : option value :=
  match keys with
  | [] => if nullish v then None else Some v
  | k :: rest =>
      match get v k with
      | Return v' => dig v' rest
      | Throw _ => None
      end
  end.

(** An entry whose stat name matches, as the specification words it: the
    entry has a stat whose name is [statName]. *)
Definition names_stat (statName : string) (entry : value) : bool :=
  match dig entry ["stat"; "name"] with
  | Some (VStr n) => String.eqb n statName
  | _ => false
  end.

(** The stat lookup as the specification words it, on any stats list: the
    [base_stat] of the first entry whose stat name matches, and 0 when no
    entry matches; it does not fail. *)
Definition claimed_stat (statName : string) (entries : list value) : value :=
  match List.find (names_stat statName) entries with
  | Some entry =>
      match get entry "base_stat" with
      | Return b => b
      | Throw _ => VUndefined
      end
  | None => VNum (Num 0)
  end.

(** The sprite as the specification words it: the official artwork when
    present and not [null], otherwise the default sprite, and the empty
    string when both are absent. *)
Definition claimed_sprite (data : value) : value :=
  match dig data ["sprites"; "other"; "official-artwork"; "front_default"] with
  | Some artwork_front => artwork_front
  | None =>
      match dig data ["sprites"; "front_default"] with
      | Some front => front
      | None => VStr ""
      end
  end.

(** The [sprites] object of a raw entity: each of the two [front_default]
    fields is present with the given value, or absent. *)
Definition field (k : string) (v : option value) : list (string * value) :=
  match v with
  | Some v => [(k, v)]
  | None => []
  end.

Definition sprites_json (artwork_front default_front : option value) : value :=
  VObj (field "front_default" default_front
        ++ [("other",
             VObj [("official-artwork",
                    VObj (field "front_default" artwork_front))])]).

(** A raw entity in the API's layout, with the [sprites] object given. *)
Definition raw_entity (sprites : value) : value :=
  VObj [("id", VNum (integer 1));
        ("name", VStr "bulbasaur");
        ("sprites", sprites);
        ("types",
         VArr [VObj [("slot", VNum (integer 1));
                     ("type", VObj [("name", VStr "grass")])];
               VObj [("slot", VNum (integer 2));
                     ("type", VObj [("name", VStr "poison")])]]);
        ("height", VNum (integer 7));
        ("weight", VNum (integer 69));
        ("abilities",
         VArr [VObj [("ability", VObj [("name", VStr "overgrow")])];
               VObj [("ability", VObj [("name", VStr "chlorophyll")])]]);
        ("stats",
         VArr [stat_json "hp" 45; stat_json "attack" 49;
               stat_json "defense" 49; stat_json "speed" 45]);
        ("species",
         VObj [("name", VStr "bulbasaur");
               ("url", VStr "https://pokeapi.co/api/v2/pokemon-species/1/")])].

Section Outcomes.
Context `{Runtime}.

(** The ways one lookup fails: the transport fails, the status is not a
    success, the body is not JSON, or the body lacks what the normalisation
    reads. *)
Inductive lookup_failure (env : lookup_env) : Prop :=
| transport_failure (e : exn) :
    fetch env (pokemon_url (randomId env)) = Rejected e →
    lookup_failure env
| remote_failure (r : response) :
    fetch env (pokemon_url (randomId env)) = Fulfilled r →
    ok r = false →
    lookup_failure env
| unreadable_body (r : response) (e : exn) :
    fetch env (pokemon_url (randomId env)) = Fulfilled r →
    ok r = true →
    json r = Rejected e →
    lookup_failure env
| malformed_body (r : response) (data : value) (e : exn) :
    fetch env (pokemon_url (randomId env)) = Fulfilled r →
    ok r = true →
    json r = Fulfilled data →
    processPokemonData data = Throw e →
    lookup_failure env.

(** The lookup gets a body that normalises to [p]. *)
Definition lookup_success (env : lookup_env) (p : pokemon) : Prop :=
  ∃ r data,
    fetch env (pokemon_url (randomId env)) = Fulfilled r
    ∧ ok r = true
    ∧ json r = Fulfilled data
    ∧ processPokemonData data = Return p.

End Outcomes.

(** Environments for the concrete runs: the network is down, the server
    answers 404, the body is the empty object, the body is a raw entity.
    The draws are doubles; that of [empty_body] is the double nearest to a
    third, 0.3333333333333333. *)
Definition offline : lookup_env :=
  {| Math_random := 0;
     fetch := λ _, Rejected (TypeError "Failed to fetch") |}.

Definition not_found : lookup_env :=
  {| Math_random := 1 # 2;
     fetch := λ _, Fulfilled {| ok := false; status := 404;
                                json := Fulfilled VNull |} |}.

Definition empty_body : lookup_env :=
  {| Math_random := 6004799503160661 # 18014398509481984;
     fetch := λ _, Fulfilled {| ok := true; status := 200;
                                json := Fulfilled (VObj []) |} |}.

Definition online (data : value) : lookup_env :=
  {| Math_random := 0;
     fetch := λ _, Fulfilled {| ok := true; status := 200;
                                json := Fulfilled data |} |}.

Definition bulbasaur : value :=
  raw_entity (sprites_json (Some (VStr "https://img.example/artwork/1.png"))
                           (Some (VStr "https://img.example/1.png"))).

(** A host for the concrete runs. It prints integers in decimal, as a
    browser does; the samples exercise none of its other coercions. *)
Definition sample_host : Runtime := {|
  StringToNumber := λ _, NaN;
  ObjectToNumber := λ _, Return NaN;
  NumberToString := λ n,
    match n with
    | Num q => if (Zpos (Qden q) =? 1)%Z then pretty (Qnum q)
               else pretty (Qnum q) +:+ "/" +:+ pretty (Zpos (Qden q))
    | NaN => "NaN"
    end;
  ObjectToString := λ _, Return "[object Object]";
  JSON_stringify := λ _, "{}";
|}.

End Reference.

(** ** What the properties observe of a state *)

Module Observe.
Import DOM App.

(** The state of [Promise.all] once the promises listed in [done] have
    fulfilled with the values [vs]. *)
Definition joined_after {A} (vs : list A) (done : list nat)
    (st : @Promise.all_state A) : Prop :=
  Promise.values st = imap (λ i v, if bool_decide (i ∈ done) then Some v else None) vs
  ∧ Promise.outcome st = Promise.resolved (Promise.values st).

(** The revealed flag of the element behind [r]: the class [flipped]. *)
Definition revealed (st : app_state) (r : ref) : option bool :=
  contains "flipped" <$> deref (page st) r.

(** The entity bound to the element behind [r]: [dataset.pokemon]. *)
Definition bound_entity (st : app_state) (r : ref) : option (option string) :=
  (λ el, dataset el !! "pokemon") <$> deref (page st) r.

(** The same two, for the slot of index [i]. *)
Definition slot_revealed (st : app_state) (i : nat) : option bool :=
  cards st !! i ≫= revealed st.

Definition slot_entity (st : app_state) (i : nat) : option (option string) :=
  cards st !! i ≫= bound_entity st.

(** The grid is populated: the loading indicator is hidden and the grid is
    not. *)
Definition populated (st : app_state) : Prop :=
  contains "hidden" <$> deref (page st) (loadingSpinner st) = Some true
  ∧ contains "hidden" <$> deref (page st) (cardGrid st) = Some false.

(** [q] is a proper descendant of [r]. *)
Definition below (q r : ref) : Prop := r `suffix_of` q ∧ q ≠ r.

(** From [st] to [st'] the class list is the same at every position that is
    not properly below [c]. *)
Definition keeps (c : ref) (st st' : app_state) : Prop :=
  cards st' = cards st
  ∧ ∀ q, ¬ below q c →
         classList <$> deref (page st') q = classList <$> deref (page st) q.

(** The two constants are bound to the references [G] and [Sp], behind
    which the page has an element. *)
Definition wired (G Sp : ref) (st : app_state) : Prop :=
  cardGrid st = G ∧ loadingSpinner st = Sp
  ∧ is_Some (deref (page st) G) ∧ is_Some (deref (page st) Sp).

(** The grid behind [G] holds the first [k] placeholder cards, and [cards]
    refers to them in order. *)
Definition placeholders `{Runtime} (G : ref) (k : nat) (st : app_state) : Prop :=
  cards st = (λ i, i :: G) <$> seq 0 k
  ∧ ∃ e, deref (page st) G = Some e
         ∧ children e = createCardElement <$> seq 0 k.

End Observe.

(** ** Sample pages and runs *)

Module Samples.
Import DOM PokemonService App Reference.

(** A page with the spinner and the grid side by side, before start-up. *)
Definition blank_page : element :=
  Element "body" [] ∅ ∅ ""
    [Element "div" ["spinner"] ∅ ∅ "" [];
     Element "div" ["card-grid"; "hidden"] ∅ ∅ "" []].

Definition blank : app_state :=
  {| page := blank_page; cardGrid := [1%nat]; loadingSpinner := [0%nat];
     cards := []; listeners := [] |}.

(** The same page with two placeholder cards in the grid, after start-up. *)
Definition dealt_page : element :=
  Element "body" [] ∅ ∅ ""
    [Element "div" ["spinner"; "hidden"] ∅ ∅ "" [];
     Element "div" ["card-grid"] ∅ ∅ ""
       [@createCardElement sample_host 0; @createCardElement sample_host 1]].

Definition dealt : app_state :=
  {| page := dealt_page; cardGrid := [1%nat]; loadingSpinner := [0%nat];
     cards := [[0%nat; 1%nat]; [1%nat; 1%nat]];
     listeners := [([1%nat], "click")] |}.

(** The image on the front of the first card, and the first card. *)
Definition first_card_image : ref := [0; 0; 0; 0; 1]%nat.
Definition first_card : ref := [0; 1]%nat.

(** The entity normalised from the sample record. *)
Definition bulbasaur_entity : option pokemon :=
  match @processPokemonData sample_host bulbasaur with
  | Return p => Some p
  | Throw _ => None
  end.

(** Four lookups: no network, a 404, an empty body, a good answer. *)
Definition mixed_world (i : nat) : lookup_env :=
  match i with
  | 0%nat => offline
  | 1%nat => not_found
  | 2%nat => empty_body
  | _ => online bulbasaur
  end.

End Samples.

(** ** Names for parts of the scripts

    Sub-expressions of the functions above, named so that properties can
    speak of them: each is the expression of the source it quotes. *)

Module Parts.
Import DOM PokemonService App.

(** Induction on an element with the hypothesis for each of its children. *)
Fixpoint element_children_ind (P : element -> Prop)
    (step : ∀ tag cl ds pr tx cs,
        Forall P cs → P (Element tag cl ds pr tx cs))
    (el : element) : P el :=
  match el with
  | Element tag cl ds pr tx cs =>
      step tag cl ds pr tx cs
        ((fix each (cs : list element) : Forall P cs :=
            match cs with
            | [] => @List.Forall_nil element P
            | c :: rest =>
                @List.Forall_cons element P c rest
                  (element_children_ind P step c) (each rest)
            end) cs)
  end.

(** [fixedString.charAt(0).toUpperCase() + fixedString.slice(1)] with
    [fixedString = s.replace(/-/g, ' ')], on a string. *)
Definition capitalized (s : string) : string :=
  toUpperCase (charAt (replace_hyphens s) 0) +:+ slice (replace_hyphens s) 1.

(** The callback of [stats.find]: [s => s.stat.name === statName]. *)
Definition stat_test (statName : string) (s : value) : result bool :=
  s_stat <- get s "stat" ;;
  s_stat_name <- get s_stat "name" ;;
  Return (strict_eq_string s_stat_name statName).

(** The callback of [data.types.map]: [t => t.type.name]. *)
Definition type_name (t : value) : result value :=
  t_type <- get t "type" ;; get t_type "name".

(** An element of the API's ability list carries the ability name [n]. *)
Definition ability_entry (a : value) (n : string) : Prop :=
  ∃ ab, get a "ability" = Return ab ∧ get ab "name" = Return (VStr n).

(** [q] and [r] are positions of which neither is the other nor above it. *)
Definition apart (q r : ref) : Prop := ¬ q `suffix_of` r ∧ ¬ r `suffix_of` q.

Section Rendering.
Context `{Runtime}.

(** The four elements that [assignPokemonToCard] appends to the card back,
    and the empty [typesDiv] that the [forEach] fills. *)
Definition imgWrapper_of (src : string) (pokemon : pokemon) : element :=
  appendChild
    (set_className "pokemon-img"
       (set_property "alt" (name pokemon)
          (set_property "src" src (createElement "img"))))
    (set_property "style.justifyContent" "center"
       (set_property "style.display" "flex"
          (set_property "style.width" "100%" (createElement "div")))).

Definition name_h2_of (pokemon : pokemon) : element :=
  set_textContent (name pokemon) (createElement "h2").

Definition empty_typesDiv : element :=
  set_className "pokemon-types" (createElement "div").

Definition statsText_of (pokemon : pokemon) : element :=
  set_textContent
    ("Height: " +:+ NumberToString (height pokemon)
     +:+ "m | Weight: " +:+ NumberToString (weight pokemon)
     +:+ "kg | Abilities: "
     +:+ NumberToString (integer (Z.of_nat (length (abilities pokemon)))))
    (createElement "p").

(** What the binding makes of the card back [e]. *)
Definition rendered_back (pokemon : pokemon) (src : string) (typesDiv : element)
    (e : element) : element :=
  appendChild (statsText_of pokemon)
    (appendChild typesDiv
       (appendChild (name_h2_of pokemon)
          (appendChild (imgWrapper_of src pokemon) (clear_innerHTML e)))).

(** [card.dataset.pokemon = JSON.stringify(pokemon)] *)
Definition bound_json (pokemon : pokemon) : string :=
  JSON_stringify (to_value pokemon).

(** The entity can be rendered: the coercions to text of its sprite and of
    its type names return. *)
Definition renderable (pokemon : pokemon) : Prop :=
  (∃ src, ToString (sprite pokemon) = Return src)
  ∧ ∃ typesDiv, add_type_badges (types pokemon) empty_typesDiv = Return typesDiv.

(** The body of the loop of [fetchAndAssignPokemon]:
    [assignPokemonToCard(cards[i], pokemonList[i])]. *)
Definition assign_slot (pokemonList : list (option pokemon)) (i : nat) : M unit :=
  card <-- (fun st => (Return (cards st !! i), st)) ;;
  assignPokemonToCard card (mjoin (pokemonList !! i)).

(** The grid behind [G] holds twelve cards, of which the first [k] have
    been through the loop of the load: slot [i < k] carries the entity
    [pokemonList[i]] if there is one and is the placeholder otherwise; the
    slots from [k] on are placeholders. No card is revealed. *)
Definition loaded_upto (pokemonList : list (option pokemon)) (G : ref) (k : nat)
    (st : app_state) : Prop :=
  cards st = (λ i, i :: G) <$> seq 0 CARD_COUNT
  ∧ ∀ i, (i < CARD_COUNT)%nat →
      ∃ e, deref (page st) (i :: G) = Some e
           ∧ classList e = ["card"]
           ∧ match mjoin (pokemonList !! i) with
             | Some pokemon =>
                 if decide (i < k)%nat
                 then dataset e !! "pokemon" = Some (bound_json pokemon)
                 else e = createCardElement i
             | None => e = createCardElement i
             end.

(** What [createCardElements] makes of the grid element [e]: its content is
    the twelve placeholder cards. *)
Definition dealt_grid (e : element) : element :=
  set_children (createCardElement <$> seq 0 CARD_COUNT) (clear_innerHTML e).

(** The body of the loop of [createCardElements] on the grid [grid]. *)
Definition deal_card (grid : ref) (i : nat) : M unit :=
  card_ref <-- attach grid (createCardElement i) ;;
  fun st => (Return tt, set_cards (cards st ++ [card_ref]) st).


End Rendering.
End Parts.

(** ** More sample data *)

Module MoreSamples.
Import DOM PokemonService App Reference Samples Parts.

(** The entity that the sample record normalises to. *)
Definition bulbasaur_pokemon : pokemon :=
  {| id := VNum (integer 1);
     name := "Bulbasaur";
     sprite := VStr "https://img.example/artwork/1.png";
     types := [VStr "grass"; VStr "poison"];
     height := Num (7 # 10);
     weight := Num (69 # 10);
     abilities := ["Overgrow"; "Chlorophyll"];
     stats := {| hp := VNum (integer 45); attack := VNum (integer 49);
                 defense := VNum (integer 49); speed := VNum (integer 45) |};
     speciesUrl := VStr "https://pokeapi.co/api/v2/pokemon-species/1/" |}.

(** Its two type badges, in their container. *)
Definition bulbasaur_badges : element :=
  appendChild (set_textContent "poison"
                 (set_className "type-badge" (createElement "span")))
    (appendChild (set_textContent "grass"
                    (set_className "type-badge" (createElement "span")))
       (@empty_typesDiv)).

(** A page whose grid holds one element that is not a card: it has no card
    back. [cards] refers to it. *)
Definition bare_page : element :=
  Element "body" [] ∅ ∅ ""
    [Element "div" ["spinner"] ∅ ∅ "" [];
     Element "div" ["card-grid"] ∅ ∅ "" [Element "div" ["card"] ∅ ∅ "" []]].

Definition bare : app_state :=
  {| page := bare_page; cardGrid := [1%nat]; loadingSpinner := [0%nat];
     cards := [[0%nat; 1%nat]]; listeners := [] |}.

(** A page whose grid holds three cards, of which the second has lost its
    inside, card back included. *)
Definition torn_page : element :=
  Element "body" [] ∅ ∅ ""
    [Element "div" ["spinner"] ∅ ∅ "" [];
     Element "div" ["card-grid"] ∅ ∅ ""
       [@createCardElement sample_host 0;
        Element "div" ["card"] ∅ ∅ "" [];
        @createCardElement sample_host 2]].

Definition torn : app_state :=
  {| page := torn_page; cardGrid := [1%nat]; loadingSpinner := [0%nat];
     cards := [[0%nat; 1%nat]; [1%nat; 1%nat]; [2%nat; 1%nat]];
     listeners := [] |}.

(** A stat list with a damaged element after the speed entry. *)
Definition damaged_stats : list value :=
  [stat_json "hp" 45; stat_json "speed" 90; VNull].

End MoreSamples.

(** ** Properties of the service *)

Section StringFacts.

Lemma string_map_get (f : ascii -> ascii) (s : string) (i : nat) :
  String.get i (string_map f s) = f <$> String.get i s.
Proof.
  revert i. induction s as [|c s IH]; intros [|i]; simpl; auto.
Qed.

Lemma string_map_length (f : ascii -> ascii) (s : string) :
  String.length (string_map f s) = String.length s.
Proof. induction s; simpl; congruence. Qed.

End StringFacts.

Section ServiceFacts.
Import PokemonService Reference.

Lemma capitalize_cons (c : ascii) (s : string) :
  capitalizeFirstLetter (VStr (String c s))
  = Return (String (upper_ascii (hyphen_to_space c)) (replace_hyphens s)).
Proof. reflexivity. Qed.

(** C5. On every string of ASCII characters the capitalisation succeeds,
    keeps the length, puts a space for every hyphen, and upper-cases the
    character at position 0 and no other; "ice-cream" gives "Ice cream" and
    "fire" gives "Fire". *)
Theorem capitalizeFirstLetter_spec (s : string) :
  ascii_only s = true →
  (∃ r : string,
      capitalizeFirstLetter (VStr s) = Return r
      ∧ String.length r = String.length s
      ∧ ∀ i : nat,
          String.get i r
          = (λ c, if decide (i = 0%nat) then upper_ascii (hyphen_to_space c)
                  else hyphen_to_space c) <$> String.get i s)
  ∧ capitalizeFirstLetter (VStr "ice-cream") = Return "Ice cream"
  ∧ capitalizeFirstLetter (VStr "fire") = Return "Fire".
Proof.
  intros _. split; [|split; reflexivity].
  destruct s as [|c s].
  - exists "". repeat split.
  - eexists. split; [apply capitalize_cons|]. split.
    + simpl. f_equal. apply string_map_length.
    + intros [|i]; simpl; [reflexivity|]. apply string_map_get.
Qed.

(** C10. On the empty string the capitalisation returns the empty string:
    [charAt(0)] and [slice(1)] are both the empty string there. *)
Theorem capitalizeFirstLetter_empty :
  capitalizeFirstLetter (VStr "") = Return ""
  ∧ charAt "" 0 = "" ∧ slice "" 1 = "".
Proof. repeat split. Qed.

(** The callback of [findStat] on an element of the stat list. *)
Lemma stat_entry_test (v : value) (nb : string * Z) (statName : string) :
  stat_entry v nb →
  (s_stat <- get v "stat" ;;
   s_stat_name <- get s_stat "name" ;;
   Return (strict_eq_string s_stat_name statName))
  = Return (String.eqb nb.1 statName).
Proof. intros (st & -> & Hn & _). simpl. rewrite Hn. reflexivity. Qed.

Lemma stat_entry_not_nullish (v : value) (nb : string * Z) :
  stat_entry v nb → nullish v = false.
Proof. intros (st & Hst & _). destruct v; done. Qed.

Lemma stat_entry_base (v : value) (nb : string * Z) :
  stat_entry v nb →
  (base_stat <- get v "base_stat" ;; Return (js_or base_stat (VNum (Num 0))))
  = Return (VNum (integer nb.2)).
Proof.
  intros (st & _ & _ & ->). simpl. unfold js_or, integer. simpl.
  unfold is_zero. simpl. destruct (Z.eqb_spec nb.2 0) as [->|]; reflexivity.
Qed.

Lemma find_first_stat (entries : list value) (typed : list (string * Z))
    (statName : string) :
  Forall2 stat_entry entries typed →
  ∃ found,
    find_first (fun s =>
        s_stat <- get s "stat" ;;
        s_stat_name <- get s_stat "name" ;;
        Return (strict_eq_string s_stat_name statName)) entries
    = Return found
    ∧ ((found = VUndefined ∧ base_stat_of statName typed = 0)
       ∨ ∃ nb, stat_entry found nb ∧ nb.2 = base_stat_of statName typed).
Proof.
  induction 1 as [|v [n b] entries typed Hv _ IH]; simpl.
  - eauto.
  - rewrite (stat_entry_test _ _ statName Hv). simpl.
    destruct (String.eqb n statName); [|exact IH].
    eexists; split; [reflexivity|]. right. by exists (n, b).
Qed.

(** On an element that has a stat, the callback of [findStat] does not
    throw, and accepts the element when its stat name is the one asked. *)
Lemma stat_test_names (statName : string) (s : value) :
  (∃ st, get s "stat" = Return st ∧ nullish st = false) →
  (s_stat <- get s "stat" ;;
   s_stat_name <- get s_stat "name" ;;
   Return (strict_eq_string s_stat_name statName))
  = Return (names_stat statName s).
Proof.
  intros (st & Hst & Hnull). unfold names_stat, dig. rewrite Hst. simpl.
  destruct st as [| |b|n|t|items|props]; try discriminate Hnull; try reflexivity.
  simpl. by destruct (default VUndefined (assoc "name" props)).
Qed.

Lemma find_first_names (statName : string) (entries : list value) :
  Forall (λ s, ∃ st, get s "stat" = Return st ∧ nullish st = false) entries →
  find_first (fun s =>
      s_stat <- get s "stat" ;;
      s_stat_name <- get s_stat "name" ;;
      Return (strict_eq_string s_stat_name statName)) entries
  = Return (default VUndefined (List.find (names_stat statName) entries)).
Proof.
  induction 1 as [|s entries Hs _ IH]; simpl; [done|].
  rewrite (stat_test_names statName s Hs). simpl.
  by destruct (names_stat statName s).
Qed.

(** C6, amended. On a stat list whose elements each have a stat that is
    neither [null] nor [undefined], the lookup returns: the [base_stat] of
    the first entry whose stat name matches when that [base_stat] is
    truthy, and 0 when it is not; and 0 when no entry matches. A list
    without "speed" gives 0, and a list with the speed entry of base stat
    90 gives 90. *)
Theorem findStat_spec (entries : list value) (statName : string) :
  Forall (λ s, ∃ st, get s "stat" = Return st ∧ nullish st = false) entries →
  (∃ r, findStat (VArr entries) statName = Return r
        ∧ match List.find (names_stat statName) entries with
          | Some entry =>
              ∃ b, get entry "base_stat" = Return b
                   ∧ r = if truthy b then b else VNum (Num 0)
          | None => r = VNum (Num 0)
          end)
  ∧ findStat (VArr [stat_json "hp" 45; stat_json "attack" 49]) "speed"
    = Return (VNum (integer 0))
  ∧ findStat (VArr [stat_json "hp" 45; stat_json "speed" 90]) "speed"
    = Return (VNum (integer 90)).
Proof.
  intros Hall. split; [|split; reflexivity].
  unfold findStat. simpl. rewrite (find_first_names statName entries Hall).
  destruct (List.find (names_stat statName) entries) as [entry|] eqn:Hfind; simpl.
  - apply List.find_some in Hfind as [Hin _].
    destruct (proj1 (List.Forall_forall _ _) Hall entry Hin) as (st & Hst & Hnull).
    destruct entry as [| |b|n|t|items|props];
      simpl in Hst; try discriminate Hst;
      try (injection Hst as <-; discriminate Hnull).
    simpl. eexists. split; [reflexivity|]. eexists. split; reflexivity.
  - eexists. split; reflexivity.
Qed.

(** C6, as stated, fails. In the list [[{}]] no entry matches, and where
    the specification has 0 the lookup throws; so it does on [[null]], and
    on the entry written as the specification writes it, with the name
    beside the base stat and no stat object. An entry that matches with
    the [base_stat] [null] gives 0, which is not its [base_stat]. *)
Lemma findStat_claim_fails :
  (names_stat "speed" (VObj []) = false
   ∧ claimed_stat "speed" [VObj []] = VNum (Num 0)
   ∧ (∃ message, findStat (VArr [VObj []]) "speed" = Throw (TypeError message))
   ∧ findStat (VArr [VObj []]) "speed"
     ≠ Return (claimed_stat "speed" [VObj []]))
  ∧ (∃ message, findStat (VArr [VNull]) "speed" = Throw (TypeError message))
  ∧ (∃ message,
        findStat (VArr [VObj [("name", VStr "speed");
                              ("base_stat", VNum (integer 90))]]) "speed"
        = Throw (TypeError message))
  ∧ (names_stat "speed"
       (VObj [("base_stat", VNull); ("stat", VObj [("name", VStr "speed")])])
     = true
     ∧ claimed_stat "speed"
         [VObj [("base_stat", VNull); ("stat", VObj [("name", VStr "speed")])]]
       = VNull
     ∧ findStat
         (VArr [VObj [("base_stat", VNull);
                      ("stat", VObj [("name", VStr "speed")])]]) "speed"
       = Return (VNum (Num 0))).
Proof.
  split; [|split; [|split]].
  - split; [reflexivity|]. split; [reflexivity|].
    split; [eexists; reflexivity|discriminate].
  - eexists; reflexivity.
  - eexists; reflexivity.
  - repeat split.
Qed.

Lemma result_bind_Return {A B} (r : result A) (k : A -> result B) (b : B) :
  result_bind r k = Return b → ∃ a, r = Return a ∧ k a = Return b.
Proof. destruct r; simpl; [eauto|discriminate]. Qed.

(** Strip the binds off a hypothesis that says a computation returned. *)
Ltac returned H :=
  repeat (let a := fresh "a" in
          let Ha := fresh "Ha" in
          apply result_bind_Return in H as (a & Ha & H)).

Section Sprite.
Context `{Runtime}.

Lemma sprite_of_selects (data sprites other artwork a d : value) :
  get data "sprites" = Return sprites →
  get sprites "other" = Return other →
  get other "official-artwork" = Return artwork →
  get artwork "front_default" = Return a →
  get sprites "front_default" = Return d →
  sprite_of data = Return (if truthy a then a else d).
Proof.
  intros Hs Ho Hw Ha Hd. unfold sprite_of.
  rewrite Hs. simpl. rewrite Ho. simpl. rewrite Hw. simpl. rewrite Ha. simpl.
  destruct (truthy a); [reflexivity|]. by rewrite Hd.
Qed.

Lemma processPokemonData_sprite (data : value) (p : pokemon) :
  processPokemonData data = Return p → sprite_of data = Return (sprite p).
Proof.
  unfold processPokemonData. intros Hp. returned Hp.
  injection Hp as <-. simpl. assumption.
Qed.

(** C1, amended. When the official-artwork object of the record can be
    read, the sprite selection succeeds: it is the artwork's [front_default]
    when that is truthy, and otherwise the record's own [front_default] as
    it stands, [null] or [undefined] included; this is the [sprite] field of
    the normalised entity. *)
Theorem sprite_selection (data sprites other artwork a d : value) :
  get data "sprites" = Return sprites →
  get sprites "other" = Return other →
  get other "official-artwork" = Return artwork →
  get artwork "front_default" = Return a →
  get sprites "front_default" = Return d →
  sprite_of data = Return (if truthy a then a else d)
  ∧ ∀ p, processPokemonData data = Return p →
         sprite p = if truthy a then a else d.
Proof.
  intros Hs Ho Hw Ha Hd.
  pose proof (sprite_of_selects _ _ _ _ _ _ Hs Ho Hw Ha Hd) as Hsel.
  split; [exact Hsel|].
  intros p Hp. apply processPokemonData_sprite in Hp. congruence.
Qed.

End Sprite.

(** C1, as stated, fails: with both sprite fields absent the entity is
    normalised and its sprite is [undefined], where the specification has
    the empty string; with both fields [null], as the API sends them for an
    entity without pictures, the sprite is [null]. *)
Lemma sprite_claim_fails :
  (∃ p, @processPokemonData sample_host (raw_entity (sprites_json None None))
        = Return p
        ∧ sprite p = VUndefined
        ∧ claimed_sprite (raw_entity (sprites_json None None)) = VStr ""
        ∧ sprite p ≠ claimed_sprite (raw_entity (sprites_json None None)))
  ∧ (∃ p, @processPokemonData sample_host
            (raw_entity (sprites_json (Some VNull) (Some VNull)))
          = Return p
          ∧ sprite p = VNull).
Proof.
  split.
  - eexists. split; [reflexivity|]. repeat split. discriminate.
  - eexists. split; reflexivity.
Qed.

End ServiceFacts.

(** ** Properties of [Promise.all] and of the batch *)

Section PromiseFacts.
Import Observe.
Context {A : Type}.
Implicit Types (vs : list A) (done schedule : list nat).

Lemma resolved_hole (slots : list (option A)) (i : nat) :
  slots !! i = Some None → Promise.resolved slots = None.
Proof.
  intros Hi. unfold Promise.resolved.
  destruct (mapM id slots) as [k|] eqn:Hk; [|done].
  apply mapM_Some_1 in Hk.
  destruct (Forall2_lookup_l _ _ _ _ _ Hk Hi) as (y & _ & Hy). done.
Qed.

Lemma resolved_full vs : Promise.resolved (Some <$> vs) = Some (Fulfilled vs).
Proof.
  unfold Promise.resolved.
  assert (mapM id (Some <$> vs) = Some vs) as ->; [|done].
  apply mapM_Some_2. induction vs; constructor; auto.
Qed.

Lemma joined_start vs :
  joined_after vs [] (Promise.all_start (Fulfilled <$> vs)).
Proof.
  split; [|done]. simpl. rewrite length_fmap.
  apply list_eq. intros i. rewrite list_lookup_imap.
  destruct (vs !! i) as [v|] eqn:Hi; simpl.
  - apply lookup_replicate_2. by eapply lookup_lt_Some.
  - apply lookup_replicate_None. by apply lookup_ge_None.
Qed.

Lemma joined_step vs done (st : @Promise.all_state A) (i : nat) :
  joined_after vs done st →
  i ∉ done →
  (i < length vs)%nat →
  joined_after vs (i :: done) (Promise.all_settle (Fulfilled <$> vs) st i).
Proof.
  intros [Hvals Hout] Hfresh Hlt.
  destruct (lookup_lt_is_Some_2 vs i Hlt) as [v Hv].
  assert (Hslot : Promise.values st !! i = Some None).
  { rewrite Hvals, list_lookup_imap, Hv. simpl.
    by rewrite bool_decide_eq_false_2. }
  unfold Promise.all_settle. rewrite list_lookup_fmap, Hv. simpl.
  rewrite Hslot. split; simpl.
  - apply list_eq. intros j. rewrite list_lookup_insert, list_lookup_imap.
    case_decide as Hj.
    + destruct Hj as [<- _]. rewrite Hv. simpl.
      rewrite bool_decide_eq_true_2; [done|]. left.
    + rewrite Hvals, list_lookup_imap.
      destruct (vs !! j) as [w|] eqn:Hw; simpl; [|done].
      assert (i ≠ j).
      { intros ->. apply Hj. split; [done|]. by rewrite Hvals, length_imap. }
      rewrite (bool_decide_ext (j ∈ i :: done) (j ∈ done)); [done|].
      rewrite elem_of_cons. split; [intros [->|?]; done|by right].
  - rewrite Hout, (resolved_hole _ _ Hslot). done.
Qed.

Lemma joined_run vs schedule : ∀ done (st : @Promise.all_state A),
  joined_after vs done st →
  NoDup (schedule ++ done) →
  (∀ i, i ∈ schedule → (i < length vs)%nat) →
  joined_after vs (reverse schedule ++ done)
    (foldl (Promise.all_settle (Fulfilled <$> vs)) st schedule).
Proof.
  induction schedule as [|i schedule IH]; intros done st Hst Hnd Hlt; simpl.
  - done.
  - rewrite reverse_cons, <- app_assoc. simpl. apply IH.
    + apply joined_step; [done| |].
      * simpl in Hnd. apply NoDup_cons in Hnd as [Hi _].
        intros Hin. apply Hi. apply elem_of_app. by right.
      * apply Hlt. left.
    + simpl in Hnd. apply NoDup_cons in Hnd as [Hi Hnd].
      apply NoDup_app in Hnd as (Hs & Hsd & Hd).
      apply NoDup_app. split; [done|]. split.
      * intros x Hx [->|Hxd]%elem_of_cons.
        -- apply Hi. apply elem_of_app. by left.
        -- by apply (Hsd x).
      * apply NoDup_cons. split; [|done].
        intros Hin. apply Hi. apply elem_of_app. by right.
    + intros j Hj. apply Hlt. by right.
Qed.

(** When every promise fulfils, in whatever order, [Promise.all] fulfils
    with the values in the order of the promises. *)
Lemma all_fulfilled vs schedule :
  schedule ≡ₚ seq 0 (length vs) →
  Promise.all (Fulfilled <$> vs) schedule = Some (Fulfilled vs).
Proof.
  intros Hperm. unfold Promise.all.
  destruct (joined_run vs schedule [] _ (joined_start vs)) as [Hvals Hout].
  - rewrite app_nil_r, Hperm. apply NoDup_seq.
  - intros i Hi. rewrite Hperm in Hi. apply elem_of_seq in Hi. lia.
  - rewrite Hout, Hvals, <- resolved_full. f_equal.
    apply list_eq. intros i. rewrite list_lookup_imap, list_lookup_fmap.
    destruct (vs !! i) as [v|] eqn:Hv; simpl; [|done].
    rewrite bool_decide_eq_true_2; [done|].
    rewrite app_nil_r, elem_of_reverse, Hperm. apply elem_of_seq.
    apply lookup_lt_Some in Hv. lia.
Qed.

End PromiseFacts.

Section BatchFacts.
Import PokemonService Reference.
Context `{Runtime}.

Lemma fulfilled_list_inj {A} (l l' : list A) :
  Fulfilled <$> l = Fulfilled <$> l' → l = l'.
Proof.
  revert l'. induction l as [|x l IH]; intros [|y l']; simpl; try done.
  intros [= -> Hl]. f_equal. by apply IH.
Qed.

(** A lookup never rejects: whatever is thrown inside is caught. *)
Lemma fetchRandomPokemon_fulfilled (env : lookup_env) :
  ∃ v, fetchRandomPokemon env = Fulfilled v.
Proof.
  unfold fetchRandomPokemon.
  match goal with |- context [try_catch ?b _] => destruct b end; simpl; eauto.
Qed.

Lemma requests_fulfilled (envs : list lookup_env) :
  ∃ vs, fetchRandomPokemon <$> envs = Fulfilled <$> vs.
Proof.
  induction envs as [|env envs [vs IH]].
  - by exists [].
  - destruct (fetchRandomPokemon_fulfilled env) as [v Hv].
    exists (v :: vs). by rewrite !fmap_cons, Hv, IH.
Qed.

Lemma lookup_failure_null (env : lookup_env) :
  lookup_failure env → fetchRandomPokemon env = Fulfilled None.
Proof.
  unfold fetchRandomPokemon.
  intros [e He|r Hr Hok|r e Hr Hok He|r data e Hr Hok Hd He];
    simpl; rewrite ?He, ?Hr; simpl; rewrite ?Hok; simpl;
    rewrite ?He, ?Hd; simpl; rewrite ?He; reflexivity.
Qed.

Lemma lookup_success_entity (env : lookup_env) (p : pokemon) :
  lookup_success env p → fetchRandomPokemon env = Fulfilled (Some p).
Proof.
  unfold fetchRandomPokemon. intros (r & data & Hr & Hok & Hd & Hp).
  simpl. rewrite Hr. simpl. rewrite Hok. simpl. rewrite Hd. simpl.
  rewrite Hp. reflexivity.
Qed.

(** A lookup fails in one of the four ways or gets an entity. *)
Lemma lookup_classified (env : lookup_env) :
  lookup_failure env ∨ ∃ p, lookup_success env p.
Proof.
  destruct (fetch env (pokemon_url (randomId env))) as [r|e] eqn:Hr;
    [|left; by eapply transport_failure].
  destruct (ok r) eqn:Hok; [|left; by eapply remote_failure].
  destruct (json r) as [data|e] eqn:Hd; [|left; by eapply unreadable_body].
  destruct (processPokemonData data) as [p|e] eqn:Hp;
    [|left; by eapply malformed_body].
  right. exists p, r, data. done.
Qed.

(** The loop issues the requests [i], [i + 1], ... up to [count], given
    fuel for that many iterations. *)
Lemma push_requests_spec (world : nat -> lookup_env) (count : Z) :
  ∀ fuel i promises,
    (Z.to_nat (count - Z.of_nat i) ≤ fuel)%nat →
    push_requests fuel world count i promises
    = Some (promises ++ ((λ j, fetchRandomPokemon (world j))
                           <$> seq i (Z.to_nat (count - Z.of_nat i)))).
Proof.
  induction fuel as [|fuel IH]; intros i promises Hfuel.
  - simpl. destruct (Z.ltb_spec (Z.of_nat i) count); [lia|].
    replace (Z.to_nat (count - Z.of_nat i)) with 0%nat by lia.
    simpl. by rewrite app_nil_r.
  - simpl. destruct (Z.ltb_spec (Z.of_nat i) count).
    + rewrite IH by lia.
      replace (Z.to_nat (count - Z.of_nat i))
        with (S (Z.to_nat (count - Z.of_nat (S i)))) by lia.
      simpl. by rewrite <- app_assoc.
    + replace (Z.to_nat (count - Z.of_nat i)) with 0%nat by lia.
      simpl. by rewrite app_nil_r.
Qed.

(** The batch resolves with the results of the requests, in request order,
    whenever every request settles. *)
Lemma fetchMultiple_resolves (count : Z) (world : nat -> lookup_env)
    (schedule : list nat) :
  schedule ≡ₚ seq 0 (Z.to_nat count) →
  ∃ l, fetchMultipleRandomPokemon count world schedule = Some (Fulfilled l)
       ∧ Fulfilled <$> l
         = (λ j, fetchRandomPokemon (world j)) <$> seq 0 (Z.to_nat count).
Proof.
  intros Hperm. unfold fetchMultipleRandomPokemon.
  rewrite push_requests_spec by lia. simpl.
  replace (Z.to_nat (count - Z.of_nat 0)) with (Z.to_nat count) by lia.
  destruct (requests_fulfilled (world <$> seq 0 (Z.to_nat count))) as [vs Hvs].
  rewrite <- list_fmap_compose in Hvs.
  change (fetchRandomPokemon ∘ world) with (λ j, fetchRandomPokemon (world j)) in Hvs.
  rewrite Hvs.
  assert (Hlen : length vs = Z.to_nat count).
  { apply (f_equal length) in Hvs. rewrite !length_fmap, length_seq in Hvs. done. }
  rewrite all_fulfilled by (by rewrite Hlen). simpl.
  by exists vs.
Qed.

Lemma fetchMultiple_position (count : Z) (world : nat -> lookup_env)
    (l : list (option pokemon)) (i : nat) :
  Fulfilled <$> l = (λ j, fetchRandomPokemon (world j)) <$> seq 0 (Z.to_nat count) →
  (i < Z.to_nat count)%nat →
  Fulfilled <$> l !! i = Some (fetchRandomPokemon (world i)).
Proof.
  intros Hl Hi. rewrite <- list_lookup_fmap, Hl, list_lookup_fmap.
  by rewrite lookup_seq_lt.
Qed.

(** C2. For a count [N >= 0], once the [N] lookups have settled, in any
    order, the batch is fulfilled, not rejected, with a list of exactly [N]
    entries. *)
Theorem fetchMultiple_length (N : Z) (world : nat -> lookup_env)
    (schedule : list nat) :
  (0 ≤ N)%Z →
  schedule ≡ₚ seq 0 (Z.to_nat N) →
  ∃ l, fetchMultipleRandomPokemon N world schedule = Some (Fulfilled l)
       ∧ Z.of_nat (length l) = N.
Proof.
  intros HN Hperm.
  destruct (fetchMultiple_resolves N world schedule Hperm) as (l & Hl & Hpos).
  exists l. split; [done|].
  apply (f_equal length) in Hpos. rewrite !length_fmap, length_seq in Hpos. lia.
Qed.

(** C3. In a batch where lookups fail, whether by the transport, by the
    status or by the body, the batch is still fulfilled; a position holds
    [null] exactly when its own lookup failed, and otherwise it holds the
    entity normalised from its own response. *)
Theorem fetchMultiple_failures (N : Z) (world : nat -> lookup_env)
    (schedule : list nat) :
  (0 ≤ N)%Z →
  schedule ≡ₚ seq 0 (Z.to_nat N) →
  ∃ l, fetchMultipleRandomPokemon N world schedule = Some (Fulfilled l)
       ∧ ∀ i : nat, (Z.of_nat i < N)%Z →
           (lookup_failure (world i) ↔ l !! i = Some None)
           ∧ (∀ p, lookup_success (world i) p ↔ l !! i = Some (Some p)).
Proof.
  intros HN Hperm.
  destruct (fetchMultiple_resolves N world schedule Hperm) as (l & Hl & Hpos).
  exists l. split; [done|]. intros i Hi.
  pose proof (fetchMultiple_position N world l i Hpos ltac:(lia)) as Hli.
  assert (Hfail : lookup_failure (world i) → l !! i = Some None).
  { intros Hfail. rewrite (lookup_failure_null _ Hfail) in Hli.
    destruct (l !! i); simpl in Hli; congruence. }
  assert (Hok : ∀ p, lookup_success (world i) p → l !! i = Some (Some p)).
  { intros p Hok. rewrite (lookup_success_entity _ _ Hok) in Hli.
    destruct (l !! i); simpl in Hli; congruence. }
  split; [split; [exact Hfail|]|intros p; split; [apply Hok|]].
  - intros Hnull. destruct (lookup_classified (world i)) as [|[p Hp]]; [done|].
    apply Hok in Hp. congruence.
  - intros Hp. destruct (lookup_classified (world i)) as [Hf|[p' Hp']].
    + apply Hfail in Hf. congruence.
    + pose proof (Hok _ Hp') as Hp''. congruence.
Qed.

(** C4. Position [i] of the batch holds the result of request [i], for
    every [i] below the count, and the batch is the same under any two
    orders in which the lookups complete. *)
Theorem fetchMultiple_order (N : Z) (world : nat -> lookup_env)
    (schedule schedule' : list nat) :
  schedule ≡ₚ seq 0 (Z.to_nat N) →
  schedule' ≡ₚ seq 0 (Z.to_nat N) →
  ∃ l, fetchMultipleRandomPokemon N world schedule = Some (Fulfilled l)
       ∧ fetchMultipleRandomPokemon N world schedule' = Some (Fulfilled l)
       ∧ ∀ i : nat, (Z.of_nat i < N)%Z →
           Fulfilled <$> l !! i = Some (fetchRandomPokemon (world i)).
Proof.
  intros Hperm Hperm'.
  destruct (fetchMultiple_resolves N world schedule Hperm) as (l & Hl & Hpos).
  destruct (fetchMultiple_resolves N world schedule' Hperm') as (l' & Hl' & Hpos').
  assert (l' = l) as ->.
  { rewrite <- Hpos in Hpos'. by apply fulfilled_list_inj. }
  exists l. split; [done|]. split; [done|].
  intros i Hi. apply (fetchMultiple_position N world l i Hpos). lia.
Qed.

End BatchFacts.

(** ** Properties of the page *)

Section TreeFacts.
Import DOM.
Implicit Types (el : element) (p q : list nat) (f : element -> element).

Lemma descend_app p q el :
  descend (p ++ q) el = descend p el ≫= descend q.
Proof.
  revert el. induction p as [|i p IH]; intros el; simpl; [done|].
  destruct (children el !! i) as [c|]; simpl; [apply IH|done].
Qed.

(** The element at the altered position is the altered element. *)
Lemma descend_alter_same f p el :
  descend p (alter_at f p el) = f <$> descend p el.
Proof.
  revert el. induction p as [|i p IH]; intros el; simpl; [done|].
  rewrite list_lookup_alter_eq.
  destruct (children el !! i) as [c|]; simpl; [apply IH|done].
Qed.

(** A mutation that leaves the children of its element alone changes, in
    the whole tree, only what it changes at that element, for any
    observation [π] that does not look at the children. *)
Lemma descend_alter_shallow {B} (π : element -> B) f p q el :
  (∀ e cs, π (set_children cs e) = π e) →
  (∀ e, children (f e) = children e) →
  π <$> descend q (alter_at f p el)
  = (if decide (p = q) then π ∘ f else π) <$> descend q el.
Proof.
  intros Hπ Hf. revert q el.
  induction p as [|i p IH]; intros [|j q] el; simpl.
  - done.
  - rewrite Hf. done.
  - by rewrite Hπ.
  - destruct (decide (i = j)) as [<-|Hij].
    + rewrite list_lookup_alter_eq.
      destruct (children el !! i) as [c|]; simpl.
      * rewrite IH. repeat case_decide; congruence.
      * by repeat case_decide.
    + rewrite list_lookup_alter_ne by done.
      case_decide; [congruence|done].
Qed.

(** A mutation that keeps [π] keeps it at every position that is not
    properly below the mutated one. *)
Lemma descend_alter_above {B} (π : element -> B) f p q el :
  (∀ e cs, π (set_children cs e) = π e) →
  (∀ e, π (f e) = π e) →
  ¬ (p `prefix_of` q ∧ p ≠ q) →
  π <$> descend q (alter_at f p el) = π <$> descend q el.
Proof.
  intros Hπ Hf. revert q el.
  induction p as [|i p IH]; intros [|j q] el Hq; simpl.
  - by rewrite Hf.
  - destruct Hq. split; [apply prefix_nil|done].
  - by rewrite Hπ.
  - destruct (decide (i = j)) as [<-|Hij].
    + rewrite list_lookup_alter_eq.
      destruct (children el !! i) as [c|]; simpl; [|done].
      apply IH. intros [Hpre Hne]. apply Hq. split.
      * by apply prefix_cons.
      * congruence.
    + by rewrite list_lookup_alter_ne.
Qed.

(** A mutation that leaves the children alone leaves every element alone
    that is neither the mutated one nor one of its ancestors. *)
Lemma descend_alter_aside f p q el :
  (∀ e, children (f e) = children e) →
  ¬ q `prefix_of` p →
  descend q (alter_at f p el) = descend q el.
Proof.
  intros Hf. revert q el.
  induction p as [|i p IH]; intros [|j q] el Hq; simpl.
  - destruct Hq. done.
  - by rewrite Hf.
  - destruct Hq. apply prefix_nil.
  - destruct (decide (i = j)) as [<-|Hij].
    + rewrite list_lookup_alter_eq.
      destruct (children el !! i) as [c|]; simpl; [|done].
      apply IH. intros Hpre. apply Hq. by apply prefix_cons.
    + by rewrite list_lookup_alter_ne.
Qed.

End TreeFacts.

Section RefFacts.
Import DOM Observe.
Implicit Types (page el : element) (r q : ref) (f : element -> element).

Lemma deref_update_same f r page :
  deref (update f r page) r = f <$> deref page r.
Proof. apply descend_alter_same. Qed.

Lemma deref_update_shallow {B} (π : element -> B) f r q page :
  (∀ e cs, π (set_children cs e) = π e) →
  (∀ e, children (f e) = children e) →
  π <$> deref (update f r page) q
  = (if decide (r = q) then π ∘ f else π) <$> deref page q.
Proof.
  intros Hπ Hf. unfold deref, update.
  rewrite (descend_alter_shallow π) by done.
  destruct (decide (reverse r = reverse q)) as [Heq|Hne],
           (decide (r = q)) as [Heq'|Hne']; try done.
  - exfalso. by apply (inj reverse) in Heq.
  - congruence.
Qed.

Lemma deref_update_above {B} (π : element -> B) f r q page :
  (∀ e cs, π (set_children cs e) = π e) →
  (∀ e, π (f e) = π e) →
  ¬ below q r →
  π <$> deref (update f r page) q = π <$> deref page q.
Proof.
  intros Hπ Hf Hq. apply descend_alter_above; [done..|].
  intros [Hpre Hne]. apply Hq. split.
  - apply suffix_prefix_reverse. done.
  - congruence.
Qed.

Lemma deref_update_aside f r q page :
  (∀ e, children (f e) = children e) →
  ¬ q `suffix_of` r →
  deref (update f r page) q = deref page q.
Proof.
  intros Hf Hq. apply descend_alter_aside; [done|].
  intros Hpre. apply Hq. by apply suffix_prefix_reverse.
Qed.

Lemma deref_child page r (i : nat) :
  deref page (i :: r) = deref page r ≫= λ e, children e !! i.
Proof.
  unfold deref. rewrite reverse_cons, descend_app.
  destruct (descend (reverse r) page) as [e|]; simpl; [|done].
  by destruct (children e !! i).
Qed.

(** Class lists. *)

Lemma contains_remove_same (token : string) el :
  contains token (classList_remove token el) = false.
Proof.
  apply bool_decide_eq_false_2. simpl.
  rewrite list_elem_of_filter. by intros [? _].
Qed.

Lemma contains_remove_other (token token' : string) el :
  token ≠ token' →
  contains token' (classList_remove token el) = contains token' el.
Proof.
  intros Hne. apply bool_decide_ext. simpl.
  rewrite list_elem_of_filter. split; [by intros [_ ?]|].
  intros Hin. split; [|done]. by intros ->.
Qed.

Lemma contains_add_same (token : string) el :
  contains token (classList_add token el) = true.
Proof.
  unfold classList_add. destruct (contains token el) eqn:Hc; [done|].
  apply bool_decide_eq_true_2. simpl. apply elem_of_app. right. left.
Qed.

Lemma contains_add_other (token token' : string) el :
  token ≠ token' →
  contains token' (classList_add token el) = contains token' el.
Proof.
  intros Hne. unfold classList_add. destruct (contains token el); [done|].
  apply bool_decide_ext. simpl.
  rewrite elem_of_app, list_elem_of_singleton.
  split; [|by left]. intros [Hin|Heq]; [done|]. by subst.
Qed.

Lemma contains_toggle_same (token : string) el :
  contains token (classList_toggle token el) = negb (contains token el).
Proof.
  unfold classList_toggle. destruct (contains token el) eqn:Hc; simpl.
  - apply contains_remove_same.
  - unfold classList_add. rewrite Hc.
    apply bool_decide_eq_true_2. simpl. apply elem_of_app. right. left.
Qed.

Lemma contains_toggle_other (token token' : string) el :
  token ≠ token' →
  contains token' (classList_toggle token el) = contains token' el.
Proof.
  intros Hne. unfold classList_toggle. destruct (contains token el).
  - by apply contains_remove_other.
  - by apply contains_add_other.
Qed.

Lemma children_toggle (token : string) el :
  children (classList_toggle token el) = children el.
Proof.
  unfold classList_toggle, classList_add.
  by destruct (contains token el).
Qed.

Lemma children_add (token : string) el :
  children (classList_add token el) = children el.
Proof. unfold classList_add. by destruct (contains token el). Qed.

Lemma dataset_toggle (token : string) el :
  dataset (classList_toggle token el) = dataset el.
Proof.
  unfold classList_toggle, classList_add.
  by destruct (contains token el).
Qed.

End RefFacts.

(** ** Properties of the card controller *)

Section ControllerFacts.
Import DOM PokemonService App Observe.
Context `{Runtime}.
Implicit Types (st : app_state) (r q c card target : ref).

Lemma mutate_run r (f : element -> element) st :
  mutate r f st
  = match deref (page st) r with
    | Some _ => (Return tt, set_page (update f r (page st)) st)
    | None => (Throw stale, st)
    end.
Proof. unfold mutate, bind, read. by destruct (deref (page st) r). Qed.

(** The walk stops at an element of the page. *)
Lemma nearest_card_found (page : element) target c :
  nearest_card page target = Return (Some c) →
  ∃ el, deref page c = Some el ∧ contains "card" el = true.
Proof.
  induction target as [|i target IH]; cbn [nearest_card].
  - destruct (deref page []) as [el|] eqn:Hel; [|done].
    destruct (contains "card" el) eqn:Hc; [|done].
    intros [= <-]. eauto.
  - destruct (deref page (i :: target)) as [el|] eqn:Hel; [|done].
    destruct (contains "card" el) eqn:Hc; [|exact IH].
    intros [= <-]. eauto.
Qed.

(** Toggling [flipped] somewhere does not move the walk. *)
Lemma nearest_card_toggle (page : element) target c :
  nearest_card (update (classList_toggle "flipped") c page) target
  = nearest_card page target.
Proof.
  assert (Hsame : ∀ q,
    contains "card" <$> deref (update (classList_toggle "flipped") c page) q
    = contains "card" <$> deref page q).
  { intros q.
    rewrite (deref_update_shallow (contains "card"));
      [|done|apply children_toggle].
    case_decide; [|done].
    destruct (deref page q); simpl; [|done].
    f_equal. by apply contains_toggle_other. }
  induction target as [|i target IH]; cbn [nearest_card].
  - specialize (Hsame []).
    destruct (deref _ []), (deref page []); simpl in Hsame; try done.
    by injection Hsame as ->.
  - specialize (Hsame (i :: target)).
    destruct (deref _ (i :: target)), (deref page (i :: target));
      simpl in Hsame; try done.
    injection Hsame as ->. by rewrite IH.
Qed.

(** One click that reaches the card [c]. *)
Lemma click_hit st target c :
  nearest_card (page st) target = Return (Some c) →
  handleCardClick target st
  = (Return tt, set_page (update (classList_toggle "flipped") c (page st)) st).
Proof.
  intros Hc. destruct (nearest_card_found _ _ _ Hc) as (el & Hel & _).
  unfold handleCardClick, bind. rewrite Hc, mutate_run, Hel. done.
Qed.

Lemma click_miss st target :
  nearest_card (page st) target = Return None →
  handleCardClick target st = (Return tt, st).
Proof. intros Hc. unfold handleCardClick, bind. by rewrite Hc. Qed.

Lemma revealed_toggled st c q :
  revealed (set_page (update (classList_toggle "flipped") c (page st)) st) q
  = (if decide (c = q) then negb else λ b, b) <$> revealed st q.
Proof.
  unfold revealed. simpl.
  rewrite (deref_update_shallow (contains "flipped"));
    [|done|apply children_toggle].
  rewrite <- option_fmap_compose.
  case_decide; [|done].
  destruct (deref (page st) q); simpl; [|done].
  f_equal. apply contains_toggle_same.
Qed.

(** C7. When the click's walk reaches the card of slot [i], the handler
    returns without error and flips the slot's revealed flag, and a second
    click puts every flag back; when the walk of a click finds no card, the
    handler returns without error and the state is the one before, so no
    flag changes. *)
Theorem toggle_twice st (i : nat) card target stray :
  cards st !! i = Some card →
  nearest_card (page st) target = Return (Some card) →
  nearest_card (page st) stray = Return None →
  let once := handleCardClick target st in
  let twice := handleCardClick target once.2 in
  (once.1 = Return tt ∧ twice.1 = Return tt
   ∧ slot_revealed once.2 i = negb <$> slot_revealed st i
   ∧ slot_revealed twice.2 i = slot_revealed st i
   ∧ ∀ q, revealed twice.2 q = revealed st q)
  ∧ (handleCardClick stray st = (Return tt, st)
     ∧ ∀ j, slot_revealed (handleCardClick stray st).2 j = slot_revealed st j).
Proof.
  intros Hslot Hhit Hmiss once twice.
  set (flip := classList_toggle "flipped").
  set (st1 := set_page (update flip card (page st)) st).
  set (st2 := set_page (update flip card (page st1)) st1).
  assert (Honce : once = (Return tt, st1)) by (by apply click_hit).
  assert (Hhit1 : nearest_card (page st1) target = Return (Some card)).
  { unfold st1. cbn [page set_page]. unfold flip. by rewrite nearest_card_toggle. }
  assert (Htwice : twice = (Return tt, st2)).
  { unfold twice. rewrite Honce. cbn [snd]. by apply click_hit. }
  assert (Hback : ∀ q, revealed st2 q = revealed st q).
  { intros q. unfold st2, flip. rewrite revealed_toggled.
    unfold st1, flip. rewrite revealed_toggled, <- option_fmap_compose.
    case_decide; destruct (revealed st q) as [[]|]; done. }
  rewrite Htwice, Honce. cbn [fst snd]. split.
  - split; [done|]. split; [done|]. split; [|split].
    + unfold slot_revealed, st1. cbn [cards set_page]. rewrite Hslot. simpl.
      unfold flip. rewrite revealed_toggled. by rewrite decide_True.
    + unfold slot_revealed, st2, st1. cbn [cards set_page]. rewrite Hslot. simpl.
      apply Hback.
    + exact Hback.
  - rewrite (click_miss _ _ Hmiss). done.
Qed.

(** A click leaves the bound entity of every element as it was. *)
Lemma click_bound_entity st target q :
  bound_entity (handleCardClick target st).2 q = bound_entity st q.
Proof.
  unfold handleCardClick, bind.
  destruct (nearest_card (page st) target) as [[c|]|e]; simpl; try done.
  rewrite mutate_run. destruct (deref (page st) c); simpl; [|done].
  unfold bound_entity. simpl.
  rewrite (deref_update_shallow (λ el, dataset el !! "pokemon"));
    [|done|apply children_toggle].
  case_decide; [|done].
  destruct (deref (page st) q); simpl; [|done].
  by rewrite dataset_toggle.
Qed.

(** Binding: what it leaves alone. *)

Lemma keeps_refl c st : keeps c st st.
Proof. by split. Qed.

Lemma keeps_trans c st1 st2 st3 :
  keeps c st1 st2 → keeps c st2 st3 → keeps c st1 st3.
Proof.
  intros [Hc1 Hq1] [Hc2 Hq2]. split; [congruence|].
  intros q Hq. by rewrite Hq2, Hq1.
Qed.

Lemma keeps_bind {A B} c (m : M A) (k : A -> M B) st :
  keeps c st (m st).2 →
  (∀ a st1, m st = (Return a, st1) → keeps c st1 (k a st1).2) →
  keeps c st (bind m k st).2.
Proof.
  intros Hm Hk. unfold bind. destruct (m st) as [[a|e] st1] eqn:Hrun.
  - eapply keeps_trans; [exact Hm|]. by apply Hk.
  - exact Hm.
Qed.

Lemma keeps_mutate c r (f : element -> element) st :
  (∀ e, classList (f e) = classList e) →
  c `suffix_of` r →
  keeps c st (mutate r f st).2.
Proof.
  intros Hf Hr. rewrite mutate_run.
  destruct (deref (page st) r); [|apply keeps_refl].
  split; [done|]. intros q Hq. simpl.
  apply (deref_update_above classList); [done..|].
  intros [Hrq Hne]. apply Hq. split.
  - by etrans.
  - intros ->. apply Hne. by apply (anti_symm suffix).
Qed.

Lemma keeps_read c r st : keeps c st (read r st).2.
Proof. unfold read. destruct (deref (page st) r); apply keeps_refl. Qed.

Lemma keeps_attach c parent (child : element) st :
  c `suffix_of` parent →
  keeps c st (attach parent child st).2.
Proof.
  intros Hp. unfold attach.
  apply keeps_bind; [apply keeps_read|]. intros el st1 _.
  apply keeps_bind; [by apply keeps_mutate|]. intros _ st2 _.
  apply keeps_refl.
Qed.

Lemma keeps_lift {A} c (r : result A) st : keeps c st (lift r st).2.
Proof. apply keeps_refl. Qed.

Lemma querySelector_inside c (class : string) st found st1 :
  querySelector c class st = (Return (Some found), st1) → c `suffix_of` found.
Proof.
  unfold querySelector, bind, read, ret.
  destruct (deref (page st) c) as [el|]; [|done].
  destruct (first_with_class class el) as [p|]; [|done].
  intros [= <- _]. by apply suffix_app_r.
Qed.

Lemma keeps_querySelector c (class : string) st :
  keeps c st (querySelector c class st).2.
Proof.
  unfold querySelector.
  apply keeps_bind; [apply keeps_read|]. intros. apply keeps_refl.
Qed.

Lemma assign_keeps c (pokemon : option pokemon) st :
  keeps c st (assignPokemonToCard (Some c) pokemon st).2.
Proof.
  destruct pokemon as [p|]; [|apply keeps_refl].
  unfold assignPokemonToCard. cbv zeta.
  apply keeps_bind; [by apply keeps_mutate|]. intros _ st1 _.
  apply keeps_bind; [apply keeps_querySelector|]. intros found st2 Hfound.
  apply keeps_bind; [apply keeps_lift|]. intros cardBack st3 Hback.
  assert (Hin : c `suffix_of` cardBack).
  { destruct found as [r|]; [|done]. injection Hback as -> _.
    by eapply querySelector_inside. }
  apply keeps_bind; [by apply keeps_mutate|]. intros _ st4 _.
  apply keeps_bind; [apply keeps_lift|]. intros src st5 _.
  apply keeps_bind; [by apply keeps_attach|]. intros _ st6 _.
  apply keeps_bind; [by apply keeps_attach|]. intros _ st7 _.
  apply keeps_bind; [apply keeps_lift|]. intros typesDiv st8 _.
  apply keeps_bind; [by apply keeps_attach|]. intros _ st9 _.
  apply keeps_bind; [by apply keeps_attach|]. intros _ st10 _.
  apply keeps_refl.
Qed.

Lemma click_cards st target : cards (handleCardClick target st).2 = cards st.
Proof.
  unfold handleCardClick, bind.
  destruct (nearest_card (page st) target) as [[c|]|e]; simpl; try done.
  rewrite mutate_run. by destruct (deref (page st) c).
Qed.

Lemma slot_revealed_at st (i : nat) card :
  cards st !! i = Some card → slot_revealed st i = revealed st card.
Proof. intros Hslot. unfold slot_revealed. by rewrite Hslot. Qed.

Lemma slot_entity_at st (i : nat) card :
  cards st !! i = Some card → slot_entity st i = bound_entity st card.
Proof. intros Hslot. unfold slot_entity. by rewrite Hslot. Qed.

(** C9. Binding an entity to the card of a slot leaves the slot's revealed
    flag as it was, whether the binding completes or throws on the way; and
    a click leaves the bound entity of every slot as it was. *)
Theorem revealed_independent st (i : nat) card (pokemon : option pokemon) target :
  cards st !! i = Some card →
  slot_revealed (assignPokemonToCard (Some card) pokemon st).2 i
  = slot_revealed st i
  ∧ ∀ j, slot_entity (handleCardClick target st).2 j = slot_entity st j.
Proof.
  intros Hslot. split.
  - destruct (assign_keeps card pokemon st) as [Hcards Hkeep].
    rewrite (slot_revealed_at _ i card) by (by rewrite Hcards).
    rewrite (slot_revealed_at _ i card) by done.
    assert (Hnb : ¬ below card card) by (by intros [_ ?]).
    specialize (Hkeep card Hnb).
    unfold revealed.
    change (contains "flipped")
      with ((λ cl : list string, bool_decide ("flipped" ∈ cl)) ∘ classList).
    by rewrite !option_fmap_compose, Hkeep.
  - intros j. unfold slot_entity. rewrite click_cards.
    destruct (cards st !! j) as [c|]; simpl; [|done].
    apply click_bound_entity.
Qed.

(** Start-up. *)

Lemma deref_update_valid_shallow (f : element -> element) r q (page : element) :
  (∀ e, children (f e) = children e) →
  is_Some (deref (update f r page) q) ↔ is_Some (deref page q).
Proof.
  intros Hf.
  rewrite <- (fmap_is_Some (λ _, ()) (deref (update f r page) q)).
  rewrite (deref_update_shallow (λ _, ())) by done.
  case_decide; apply fmap_is_Some.
Qed.

Lemma deref_update_valid_above (f : element -> element) r q (page : element) :
  ¬ below q r →
  is_Some (deref (update f r page) q) ↔ is_Some (deref page q).
Proof.
  intros Hq.
  rewrite <- (fmap_is_Some (λ _, ()) (deref (update f r page) q)).
  rewrite (deref_update_above (λ _, ())) by done.
  apply fmap_is_Some.
Qed.

(** A mutation of the grid or of the spinner that leaves children alone. *)
Lemma mutate_wired G Sp r (f : element -> element) st :
  wired G Sp st →
  r = G ∨ r = Sp →
  (∀ e, children (f e) = children e) →
  mutate r f st = (Return tt, set_page (update f r (page st)) st)
  ∧ wired G Sp (set_page (update f r (page st)) st).
Proof.
  intros (HG & HS & [g Hg] & [s Hs]) Hr Hf. split.
  - rewrite mutate_run. by destruct Hr as [-> | ->]; rewrite ?Hg, ?Hs.
  - repeat split; [done..| |]; simpl;
      apply deref_update_valid_shallow; eauto.
Qed.

Lemma for_upto_skip (body : nat -> M unit) st :
  (∀ i, body i st = (Return tt, st)) →
  ∀ n k, for_upto n k body st = (Return tt, st).
Proof.
  intros Hbody. induction n as [|n IH]; intros k; simpl; [done|].
  unfold bind. by rewrite Hbody, IH.
Qed.

(** With nothing but [null] in the batch, the load binds nothing. *)
Lemma assign_batch_null (l : list (option pokemon)) st :
  Forall (λ p, p = None) l →
  assign_batch (Fulfilled l) st = (Return tt, st).
Proof.
  intros Hnull. unfold assign_batch, try_catch_M, bind, lift. simpl.
  rewrite for_upto_skip; [done|].
  intros i. destruct (cards st !! i) as [card|]; [|by destruct (mjoin (l !! i))].
  destruct (l !! i) as [p|] eqn:Hp; simpl; [|done].
  rewrite Forall_lookup in Hnull. by rewrite (Hnull i p Hp).
Qed.

Lemma attach_run parent (child el : element) st :
  deref (page st) parent = Some el →
  attach parent child st
  = (Return (length (children el) :: parent),
     set_page (update (appendChild child) parent (page st)) st).
Proof.
  intros Hel. unfold attach, bind, read, ret, mutate, bind, read.
  cbv beta. rewrite Hel. cbv beta iota. rewrite Hel. reflexivity.
Qed.

(** One more placeholder card. *)
Lemma placeholders_step G Sp (k : nat) st :
  wired G Sp st →
  ¬ G `suffix_of` Sp →
  placeholders G k st →
  ∃ st', (card_ref <-- attach G (createCardElement k) ;;
          fun st => (Return tt, set_cards (cards st ++ [card_ref]) st)) st
         = (Return tt, st')
         ∧ wired G Sp st' ∧ placeholders G (S k) st'.
Proof.
  intros (HG & HS & _ & Hs) Hapart (Hcards & e & He & Hch).
  eexists. split.
  - unfold bind. rewrite (attach_run _ _ _ _ He). reflexivity.
  - split.
    + repeat split; [done..| |]; simpl.
      * rewrite deref_update_same, He. eauto.
      * apply deref_update_valid_above; [|done].
        intros [Hsuf _]. by apply Hapart.
    + split; cbn [cards set_cards set_page page].
      * rewrite Hcards, Hch, length_fmap, length_seq, seq_S, fmap_app. done.
      * exists (appendChild (createCardElement k) e). split.
        -- by rewrite deref_update_same, He.
        -- unfold appendChild. cbn [children set_children].
           by rewrite Hch, seq_S, fmap_app.
Qed.

Lemma placeholders_loop G Sp :
  ¬ G `suffix_of` Sp →
  ∀ n k st,
    wired G Sp st →
    placeholders G k st →
    ∃ st', for_upto n k (fun i =>
             card_ref <-- attach G (createCardElement i) ;;
             fun st => (Return tt, set_cards (cards st ++ [card_ref]) st)) st
           = (Return tt, st')
           ∧ wired G Sp st' ∧ placeholders G (k + n) st'.
Proof.
  intros Hapart. induction n as [|n IH]; intros k st Hw Hp; simpl.
  - exists st. by rewrite Nat.add_0_r.
  - destruct (placeholders_step G Sp k st Hw Hapart Hp) as (st1 & Hrun & Hw1 & Hp1).
    destruct (IH (S k) st1 Hw1 Hp1) as (st2 & Hrun2 & Hw2 & Hp2).
    exists st2. split; [|split; [done|]].
    + unfold bind at 1. by rewrite Hrun.
    + by replace (k + S n)%nat with (S k + n)%nat by lia.
Qed.

Lemma createCardElements_run G Sp st :
  wired G Sp st →
  ¬ G `suffix_of` Sp →
  ∃ st', createCardElements st = (Return tt, st')
         ∧ wired G Sp st' ∧ placeholders G CARD_COUNT st'.
Proof.
  intros Hw Hapart. pose proof Hw as (HG & HS & [g Hg] & Hs).
  set (st1 := set_cards [] (set_page (update clear_innerHTML G (page st)) st)).
  assert (Hw1 : wired G Sp st1).
  { repeat split; [done..| |]; simpl.
    - rewrite deref_update_same, Hg. eauto.
    - apply deref_update_valid_above; [|done].
      intros [Hsuf _]. by apply Hapart. }
  assert (Hp1 : placeholders G 0 st1).
  { split; [done|]. exists (clear_innerHTML g). split; [|done].
    simpl. by rewrite deref_update_same, Hg. }
  destruct (placeholders_loop G Sp Hapart CARD_COUNT 0 st1 Hw1 Hp1)
    as (st2 & Hrun & Hw2 & Hp2).
  exists st2. split; [|done].
  unfold createCardElements, bind at 1 2 3. rewrite HG, mutate_run, Hg.
  exact Hrun.
Qed.

Lemma placeholders_card G (k i : nat) st :
  placeholders G k st →
  (i < k)%nat →
  cards st !! i = Some (i :: G)
  ∧ deref (page st) (i :: G) = Some (createCardElement i).
Proof.
  intros (Hcards & e & He & Hch) Hi. split.
  - by rewrite Hcards, list_lookup_fmap, lookup_seq_lt.
  - rewrite deref_child, He. simpl.
    by rewrite Hch, list_lookup_fmap, lookup_seq_lt.
Qed.

Lemma placeholder_unbound (i : nat) :
  dataset (createCardElement i) !! "pokemon" = None
  ∧ contains "flipped" (createCardElement i) = false.
Proof.
  split; [|reflexivity].
  unfold createCardElement. cbv zeta. simpl.
  by rewrite lookup_insert_ne.
Qed.

(** The end of [initApp]: the listener, the spinner, the grid. *)
Lemma reveal_run G Sp (k : nat) st :
  wired G Sp st →
  ¬ G `suffix_of` Sp →
  placeholders G k st →
  ∃ st', (setupEventListeners ;;;
          hideLoading ;;;
          grid <-- (fun st => (Return (cardGrid st), st)) ;;
          mutate grid (classList_remove "hidden")) st
         = (Return tt, st')
         ∧ populated st'
         ∧ cards st' = cards st
         ∧ ∀ i, (i < k)%nat →
             deref (page st') (i :: G) = Some (createCardElement i).
Proof.
  intros Hw Hapart Hp.
  destruct (setupEventListeners st) as [r1 st1] eqn:Hsetup.
  assert (Hst1 : r1 = Return tt ∧ page st1 = page st ∧ cards st1 = cards st
                 ∧ cardGrid st1 = cardGrid st
                 ∧ loadingSpinner st1 = loadingSpinner st).
  { unfold setupEventListeners in Hsetup. injection Hsetup as <- <-.
    by case_bool_decide. }
  destruct Hst1 as (-> & Hpage1 & Hcards1 & HG1 & HS1).
  assert (Hw1 : wired G Sp st1).
  { destruct Hw as (HG & HS & Hg & Hs).
    repeat split; [congruence..| |]; by rewrite Hpage1. }
  destruct (mutate_wired G Sp Sp (classList_add "hidden") st1 Hw1)
    as [Hrun2 Hw2]; [by right|apply children_add|].
  set (st2 := set_page (update (classList_add "hidden") Sp (page st1)) st1) in *.
  destruct (mutate_wired G Sp G (classList_remove "hidden") st2 Hw2)
    as [Hrun3 Hw3]; [by left|done|].
  set (st3 := set_page (update (classList_remove "hidden") G (page st2)) st2) in *.
  pose proof Hw1 as (_ & HSp1 & [g Hg] & [s Hs]).
  assert (HGS : G ≠ Sp) by (by intros ->).
  exists st3. split; [|split; [|split]].
  - unfold bind at 1. rewrite Hsetup.
    unfold bind at 1, hideLoading, bind at 1. rewrite HSp1, Hrun2.
    unfold bind at 1. destruct Hw2 as (-> & _). exact Hrun3.
  - destruct Hw3 as (HG3 & HS3 & _ & _). unfold populated.
    rewrite HG3, HS3. unfold st3. cbn [page set_page]. split.
    + rewrite (deref_update_shallow (contains "hidden")) by done.
      rewrite decide_False by done.
      unfold st2. cbn [page set_page].
      rewrite deref_update_same, Hs. simpl. f_equal. apply contains_add_same.
    + rewrite deref_update_same.
      destruct Hw2 as (_ & _ & [g2 Hg2] & _). rewrite Hg2. simpl.
      f_equal. apply contains_remove_same.
  - by rewrite <- Hcards1.
  - intros i Hi. unfold st3, st2. cbn [page set_page].
    rewrite deref_update_aside; [|done|apply suffix_cons_not].
    rewrite deref_update_aside; [|apply children_add|].
    + rewrite Hpage1. by apply (placeholders_card G k i st Hp).
    + intros Hsuf. apply Hapart. etrans; [|exact Hsuf]. by apply suffix_cons_r.
Qed.

(** C8. From a page that has the grid and the loading spinner, the spinner
    not being inside the grid, a start-up whose batch result holds only
    [null] completes without error in the populated state (spinner hidden,
    grid shown) with twelve slots, each the untouched placeholder card:
    nothing bound, not revealed. *)
Theorem initApp_all_null st (world : nat -> lookup_env) (schedule : list nat)
    (l : list (option pokemon)) :
  is_Some (deref (page st) (cardGrid st)) →
  is_Some (deref (page st) (loadingSpinner st)) →
  ¬ cardGrid st `suffix_of` loadingSpinner st →
  fetchMultipleRandomPokemon (Z.of_nat CARD_COUNT) world schedule
  = Some (Fulfilled l) →
  Forall (λ p, p = None) l →
  ∃ st', initApp world schedule st = Some (Return tt, st')
         ∧ populated st'
         ∧ length (cards st') = 12%nat
         ∧ ∀ i, (i < 12)%nat →
             ∃ card, cards st' !! i = Some card
                     ∧ deref (page st') card = Some (createCardElement i)
                     ∧ slot_entity st' i = Some None
                     ∧ slot_revealed st' i = Some false.
Proof.
  intros Hg Hs Hapart Hbatch Hnull.
  set (G := cardGrid st) in *. set (Sp := loadingSpinner st) in *.
  assert (Hw : wired G Sp st) by done.
  destruct (mutate_wired G Sp Sp (classList_remove "hidden") st Hw)
    as [Hrun1 Hw1]; [by right|done|].
  set (st1 := set_page (update (classList_remove "hidden") Sp (page st)) st) in *.
  destruct (mutate_wired G Sp G (classList_add "hidden") st1 Hw1)
    as [Hrun2 Hw2]; [by left|apply children_add|].
  set (st2 := set_page (update (classList_add "hidden") G (page st1)) st1) in *.
  destruct (createCardElements_run G Sp st2 Hw2 Hapart) as (st3 & Hrun3 & Hw3 & Hp3).
  destruct (reveal_run G Sp CARD_COUNT st3 Hw3 Hapart Hp3)
    as (st4 & Hrun4 & Hpop & Hcards4 & Hderef4).
  exists st4. split; [|split; [done|split]].
  - unfold initApp.
    unfold bind at 1, showLoading, bind at 1. fold Sp. rewrite Hrun1.
    unfold bind at 1. change (cardGrid st1) with G.
    unfold bind at 1. rewrite Hrun2, Hrun3.
    unfold fetchAndAssignPokemon. rewrite Hbatch. simpl.
    rewrite (assign_batch_null l st3 Hnull). simpl.
    by rewrite Hrun4.
  - destruct Hp3 as [Hc3 _]. rewrite Hcards4, Hc3, length_fmap, length_seq. done.
  - intros i Hi.
    destruct (placeholders_card G CARD_COUNT i st3 Hp3 Hi) as [Hci _].
    destruct (placeholder_unbound i) as [Hunbound Hhidden].
    exists (i :: G). rewrite <- Hcards4 in Hci.
    split; [done|]. split; [by apply Hderef4|].
    rewrite (slot_entity_at st4 i (i :: G) Hci).
    rewrite (slot_revealed_at st4 i (i :: G) Hci).
    unfold bound_entity, revealed. rewrite (Hderef4 i Hi). split.
    + change (Some (dataset (createCardElement i) !! "pokemon") = Some None).
      by rewrite Hunbound.
    + change (Some (contains "flipped" (createCardElement i)) = Some false).
      by rewrite Hhidden.
Qed.

End ControllerFacts.

(** ** The properties at concrete inputs *)

Section Runs.
Import DOM PokemonService App Reference Observe Samples.

(** "mr-mime": the hyphen becomes a space, the first letter a capital, and
    the second word stays as it is. *)
Lemma capitalizeFirstLetter_spec_witness :
  ascii_only "mr-mime" = true
  ∧ ∃ r, capitalizeFirstLetter (VStr "mr-mime") = Return r
         ∧ String.length r = 7%nat
         ∧ String.get 0 r = Some "M"%char
         ∧ String.get 2 r = Some " "%char
         ∧ String.get 3 r = Some "m"%char.
Proof.
  split; [reflexivity|].
  destruct (capitalizeFirstLetter_spec "mr-mime" eq_refl)
    as [(r & Hr & Hlen & Hat) _].
  exists r. split; [exact Hr|]. split; [exact Hlen|].
  split; [exact (Hat 0%nat)|]. split; [exact (Hat 2%nat)|exact (Hat 3%nat)].
Defined.

(** A stat list with two speed entries, after an element whose stat is not
    an object: the first speed entry decides. *)
Lemma findStat_spec_witness :
  Forall (λ s, ∃ st, get s "stat" = Return st ∧ nullish st = false)
    [VObj [("stat", VStr "hp")]; stat_json "speed" 90; stat_json "speed" 7]
  ∧ findStat
      (VArr [VObj [("stat", VStr "hp")]; stat_json "speed" 90;
             stat_json "speed" 7]) "speed"
    = Return (VNum (integer 90)).
Proof.
  assert (Hentries :
    Forall (λ s, ∃ st, get s "stat" = Return st ∧ nullish st = false)
      [VObj [("stat", VStr "hp")]; stat_json "speed" 90; stat_json "speed" 7]).
  { repeat constructor; eexists; split; reflexivity. }
  split; [exact Hentries|].
  destruct (findStat_spec _ "speed" Hentries) as [(r & Hr & b & Hb & Hrb) _].
  simpl in Hb. injection Hb as <-. rewrite Hr, Hrb. reflexivity.
Defined.

(** The sample record with no official artwork: the default sprite. *)
Lemma sprite_selection_witness :
  let artwork := VObj [("front_default", VNull)] in
  let other := VObj [("official-artwork", artwork)] in
  let sprites :=
    sprites_json (Some VNull) (Some (VStr "https://img.example/1.png")) in
  let data := raw_entity sprites in
  get data "sprites" = Return sprites
  ∧ get sprites "other" = Return other
  ∧ get other "official-artwork" = Return artwork
  ∧ get artwork "front_default" = Return VNull
  ∧ get sprites "front_default" = Return (VStr "https://img.example/1.png")
  ∧ sprite_of data = Return (VStr "https://img.example/1.png").
Proof.
  cbv zeta. repeat (split; [reflexivity|]).
  apply (@sprite_selection sample_host
           (raw_entity (sprites_json (Some VNull)
                          (Some (VStr "https://img.example/1.png"))))
           (sprites_json (Some VNull) (Some (VStr "https://img.example/1.png")))
           (VObj [("official-artwork", VObj [("front_default", VNull)])])
           (VObj [("front_default", VNull)])
           VNull (VStr "https://img.example/1.png"));
    reflexivity.
Defined.

(** A decidable proposition that evaluates to true. *)
Ltac by_evaluation := apply (bool_decide_unpack _); vm_compute; exact I.

(** Three lookups that complete in the order 2, 0, 1. *)
Lemma fetchMultiple_length_witness :
  (0 ≤ 3)%Z
  ∧ [2; 0; 1]%nat ≡ₚ seq 0 (Z.to_nat 3)
  ∧ ∃ l, @fetchMultipleRandomPokemon sample_host 3 mixed_world [2; 0; 1]%nat
         = Some (Fulfilled l)
         ∧ Z.of_nat (length l) = 3.
Proof.
  split; [lia|]. split; [by_evaluation|].
  apply (@fetchMultiple_length sample_host 3 mixed_world [2; 0; 1]%nat);
    [lia|by_evaluation].
Defined.

(** Four lookups, three failing each in its own way, completing in the
    order 3, 1, 0, 2: the batch is [null; null; null; entity]. *)
Lemma fetchMultiple_failures_witness :
  (0 ≤ 4)%Z
  ∧ [3; 1; 0; 2]%nat ≡ₚ seq 0 (Z.to_nat 4)
  ∧ @lookup_failure sample_host (mixed_world 0)
  ∧ @lookup_failure sample_host (mixed_world 1)
  ∧ @lookup_failure sample_host (mixed_world 2)
  ∧ ∃ l, @fetchMultipleRandomPokemon sample_host 4 mixed_world [3; 1; 0; 2]%nat
         = Some (Fulfilled l)
         ∧ l !! 0%nat = Some None
         ∧ l !! 1%nat = Some None
         ∧ l !! 2%nat = Some None
         ∧ l !! 3%nat = Some bulbasaur_entity.
Proof.
  assert (H0 : @lookup_failure sample_host (mixed_world 0))
    by (by eapply transport_failure).
  assert (H1 : @lookup_failure sample_host (mixed_world 1))
    by (by eapply remote_failure).
  assert (H2 : @lookup_failure sample_host (mixed_world 2))
    by (by eapply malformed_body).
  split; [lia|]. split; [by_evaluation|]. do 3 (split; [assumption|]).
  destruct (@fetchMultiple_failures sample_host 4 mixed_world [3; 1; 0; 2]%nat)
    as (l & Hl & Hpos); [lia|by_evaluation|].
  exists l. split; [exact Hl|].
  split; [|split; [|split]].
  - apply (Hpos 0%nat); [lia|exact H0].
  - apply (Hpos 1%nat); [lia|exact H1].
  - apply (Hpos 2%nat); [lia|exact H2].
  - apply (Hpos 3%nat); [lia|]. by do 2 eexists.
Defined.

(** The same four lookups under two completion orders. *)
Lemma fetchMultiple_order_witness :
  [3; 1; 0; 2]%nat ≡ₚ seq 0 (Z.to_nat 4)
  ∧ [0; 1; 2; 3]%nat ≡ₚ seq 0 (Z.to_nat 4)
  ∧ @fetchMultipleRandomPokemon sample_host 4 mixed_world [3; 1; 0; 2]%nat
    = @fetchMultipleRandomPokemon sample_host 4 mixed_world [0; 1; 2; 3]%nat.
Proof.
  split; [by_evaluation|]. split; [by_evaluation|].
  destruct (@fetchMultiple_order sample_host 4 mixed_world
              [3; 1; 0; 2]%nat [0; 1; 2; 3]%nat)
    as (l & Hl & Hl' & _); [by_evaluation|by_evaluation|].
  by rewrite Hl, Hl'.
Defined.

(** A click on the image of the first card, twice; and a click on the grid
    itself, outside every card. *)
Lemma toggle_twice_witness :
  cards dealt !! 0%nat = Some first_card
  ∧ nearest_card (page dealt) first_card_image = Return (Some first_card)
  ∧ nearest_card (page dealt) [1%nat] = Return None
  ∧ slot_revealed
      (handleCardClick first_card_image
         (handleCardClick first_card_image dealt).2).2 0
    = slot_revealed dealt 0
  ∧ handleCardClick [1%nat] dealt = (Return tt, dealt).
Proof.
  split; [reflexivity|]. split; [reflexivity|]. split; [reflexivity|].
  destruct (toggle_twice dealt 0 first_card first_card_image [1%nat])
    as [(_ & _ & _ & Htwice & _) (Hstray & _)]; try reflexivity.
  split; [exact Htwice|exact Hstray].
Defined.

(** Binding the sample entity to the first card of the dealt page. *)
Lemma revealed_independent_witness :
  cards dealt !! 0%nat = Some first_card
  ∧ slot_revealed
      (@assignPokemonToCard sample_host (Some first_card) bulbasaur_entity dealt).2 0
    = slot_revealed dealt 0.
Proof.
  split; [reflexivity|].
  apply (@revealed_independent sample_host dealt 0 first_card
           bulbasaur_entity first_card).
  reflexivity.
Defined.

(** Start-up on the blank page with the network down. *)
Lemma initApp_all_null_witness :
  is_Some (deref (page blank) (cardGrid blank))
  ∧ is_Some (deref (page blank) (loadingSpinner blank))
  ∧ ¬ cardGrid blank `suffix_of` loadingSpinner blank
  ∧ @fetchMultipleRandomPokemon sample_host (Z.of_nat CARD_COUNT)
      (λ _, offline) (seq 0 12)
    = Some (Fulfilled (replicate 12 None))
  ∧ Forall (λ p : option pokemon, p = None) (replicate 12 None)
  ∧ ∃ st', @initApp sample_host (λ _, offline) (seq 0 12) blank
           = Some (Return tt, st')
           ∧ populated st'.
Proof.
  assert (Hg : is_Some (deref (page blank) (cardGrid blank))) by (by eexists).
  assert (Hs : is_Some (deref (page blank) (loadingSpinner blank))) by (by eexists).
  assert (Hapart : ¬ cardGrid blank `suffix_of` loadingSpinner blank)
    by by_evaluation.
  assert (Hbatch : @fetchMultipleRandomPokemon sample_host (Z.of_nat CARD_COUNT)
                     (λ _, offline) (seq 0 12)
                   = Some (Fulfilled (replicate 12 None)))
    by (vm_compute; reflexivity).
  assert (Hnull : Forall (λ p : option pokemon, p = None) (replicate 12 None))
    by (repeat constructor).
  do 5 (split; [assumption|]).
  destruct (@initApp_all_null sample_host blank (λ _, offline) (seq 0 12)
              (replicate 12 None) Hg Hs Hapart Hbatch Hnull)
    as (st' & Hrun & Hpop & _).
  exists st'. split; [exact Hrun|exact Hpop].
Defined.

End Runs.

(** ** Properties of the rounding of doubles *)

Section DoubleFacts.
Import Double.

(** Powers of two. *)

Lemma two_nonzero : ¬ (2 == 0)%Q.
Proof. by compute. Qed.

Lemma pow2_pos (e : Z) : (0 < Qpower 2 e)%Q.
Proof. by apply Qpower_0_lt. Qed.

Lemma pow2_add (a b : Z) : (Qpower 2 (a + b) == Qpower 2 a * Qpower 2 b)%Q.
Proof. apply Qpower_plus, two_nonzero. Qed.

Lemma pow2_Z (e : Z) : (0 ≤ e)%Z → (Qpower 2 e == inject_Z (2 ^ e))%Q.
Proof. intros He. by rewrite Zpower_Qpower. Qed.

(** The binade of a number holds it. *)
Lemma binade_spec (q : Q) :
  ¬ (q == 0)%Q →
  (Qpower 2 (binade q) <= Qabs q)%Q ∧ (Qabs q < Qpower 2 (binade q + 1))%Q.
Proof.
  intros Hq. unfold binade.
  set (n := Z.abs (Qnum q)). set (d := Zpos (Qden q)).
  assert (Hn : (0 < n)%Z).
  { unfold n. destruct q as [[|p|p] dq]; simpl; try lia. by destruct Hq. }
  assert (Habs : (Qabs q == inject_Z n / inject_Z d)%Q).
  { destruct q as [nq dq]. unfold n, d. simpl. apply Qmake_Qdiv. }
  assert (Hd : (0 < inject_Z d)%Q) by (by unfold d).
  destruct (Z.log2_spec n Hn) as [Hn1 Hn2].
  destruct (Z.log2_spec d ltac:(done)) as [Hd1 Hd2].
  set (a := Z.log2 n) in *. set (c := Z.log2 d) in *.
  assert (Ha : (0 ≤ a)%Z) by apply Z.log2_nonneg.
  assert (Hc : (0 ≤ c)%Z) by apply Z.log2_nonneg.
  assert (Hqn1 : (Qpower 2 a <= inject_Z n)%Q).
  { rewrite pow2_Z by done. by rewrite <- Zle_Qle. }
  assert (Hqn2 : (inject_Z n < Qpower 2 (a + 1))%Q).
  { rewrite pow2_Z by lia. rewrite <- Zlt_Qlt. by rewrite <- Z.add_1_r in Hn2. }
  assert (Hqd1 : (Qpower 2 c <= inject_Z d)%Q).
  { rewrite pow2_Z by done. by rewrite <- Zle_Qle. }
  assert (Hqd2 : (inject_Z d < Qpower 2 (c + 1))%Q).
  { rewrite pow2_Z by lia. rewrite <- Zlt_Qlt. by rewrite <- Z.add_1_r in Hd2. }
  destruct (Qle_bool (Qpower 2 (a - c)) (Qabs q)) eqn:Hle.
  - apply Qle_bool_iff in Hle. split; [done|].
    rewrite Habs. apply Qlt_shift_div_r; [done|].
    eapply Qlt_le_trans; [exact Hqn2|].
    replace (a + 1)%Z with ((a - c + 1) + c)%Z by lia.
    rewrite pow2_add. apply Qmult_le_l; [apply pow2_pos|done].
  - assert (Hlt : (Qabs q < Qpower 2 (a - c))%Q).
    { apply Qnot_le_lt. intros Hle'. apply Qle_bool_iff in Hle'. congruence. }
    split; [|by replace (a - c - 1 + 1)%Z with (a - c)%Z by lia].
    rewrite Habs. apply Qle_shift_div_l; [done|].
    apply Qle_trans with (Qpower 2 (a - c - 1) * Qpower 2 (c + 1))%Q.
    + apply Qmult_le_l; [apply pow2_pos|]. by apply Qlt_le_weak.
    + rewrite <- pow2_add. by replace (a - c - 1 + (c + 1))%Z with a by lia.
Qed.


(** Below a power of two, and from a power of two on. *)
Lemma binade_below (q : Q) (e : Z) :
  (0 < q)%Q → (q < Qpower 2 e)%Q → (binade q < e)%Z.
Proof.
  intros Hpos Hlt.
  destruct (binade_spec q) as [Hlo _].
  { intros Hq. rewrite Hq in Hpos. by apply Qlt_irrefl in Hpos. }
  rewrite Qabs_pos in Hlo by (by apply Qlt_le_weak).
  apply (Qpower_lt_compat_l_inv 2); [|done].
  by eapply Qle_lt_trans.
Qed.

Lemma binade_from (q : Q) (e : Z) :
  (Qpower 2 e <= q)%Q → (e ≤ binade q)%Z.
Proof.
  intros Hle.
  assert (Hpos : (0 < q)%Q) by (eapply Qlt_le_trans; [apply (pow2_pos e)|done]).
  destruct (binade_spec q) as [_ Hhi].
  { intros Hq. rewrite Hq in Hpos. by apply Qlt_irrefl in Hpos. }
  rewrite Qabs_pos in Hhi by (by apply Qlt_le_weak).
  assert (e < binade q + 1)%Z; [|lia].
  apply (Qpower_lt_compat_l_inv 2); [|done].
  by eapply Qle_lt_trans.
Qed.

(** The nearest integer lies on the same side of an integer. *)
Lemma nearest_even_floor (t : Q) :
  nearest_even t = Qfloor t ∨ nearest_even t = (Qfloor t + 1)%Z.
Proof.
  unfold nearest_even.
  destruct (t - inject_Z (Qfloor t) ?= 1 # 2)%Q; auto.
  destruct (Z.even (Qfloor t)); auto.
Qed.

Lemma nearest_even_ge (t : Q) (z : Z) :
  (inject_Z z <= t)%Q → (z ≤ nearest_even t)%Z.
Proof.
  intros Hz. apply Qfloor_resp_le in Hz. rewrite Qfloor_Z in Hz.
  destruct (nearest_even_floor t) as [-> | ->]; lia.
Qed.

Lemma nearest_even_le (t : Q) (z : Z) :
  (t <= inject_Z z)%Q → (nearest_even t ≤ z)%Z.
Proof.
  intros Hz.
  assert (Hf : (Qfloor t ≤ z)%Z).
  { apply Qfloor_resp_le in Hz. by rewrite Qfloor_Z in Hz. }
  destruct (decide (Qfloor t = z)) as [Heq|Hne].
  - unfold nearest_even. rewrite Heq.
    assert (Hlt : Qcompare (t - inject_Z z) (1 # 2) = Lt).
    { assert (Hlt : (t - inject_Z z < 1 # 2)%Q) by lra. by apply Qlt_alt in Hlt. }
    by rewrite Hlt.
  - destruct (nearest_even_floor t) as [-> | ->]; lia.
Qed.

Lemma nearest_even_below_half (t : Q) (z : Z) :
  (t < inject_Z z + (1 # 2))%Q → (nearest_even t ≤ z)%Z.
Proof.
  intros Hz.
  assert (Hf : (Qfloor t ≤ z)%Z).
  { assert (Hlt : (inject_Z (Qfloor t) < inject_Z (z + 1))%Q).
    { eapply Qle_lt_trans; [apply Qfloor_le|]. eapply Qlt_le_trans; [exact Hz|].
      rewrite inject_Z_plus. apply Qplus_le_r. done. }
    rewrite <- Zlt_Qlt in Hlt. lia. }
  destruct (decide (Qfloor t = z)) as [Heq|Hne].
  - unfold nearest_even. rewrite Heq.
    assert (Hlt : Qcompare (t - inject_Z z) (1 # 2) = Lt).
    { assert (Hlt : (t - inject_Z z < 1 # 2)%Q) by lra. by apply Qlt_alt in Hlt. }
    by rewrite Hlt.
  - destruct (nearest_even_floor t) as [-> | ->]; lia.
Qed.

(** Rounding. *)

Lemma round_nonzero (q : Q) :
  ¬ (q == 0)%Q →
  round q = (inject_Z (nearest_even (q / Qpower 2 (ulp_exponent q)))
             * Qpower 2 (ulp_exponent q))%Q.
Proof.
  intros Hq. unfold round.
  destruct (Qeq_bool q 0) eqn:Heq; [|done].
  by apply Qeq_bool_iff in Heq.
Qed.

Lemma round_nonneg (q : Q) : (0 <= q)%Q → (0 <= round q)%Q.
Proof.
  intros Hq. unfold round. destruct (Qeq_bool q 0); [done|].
  apply Qmult_le_0_compat; [|apply Qlt_le_weak, pow2_pos].
  change 0%Q with (inject_Z 0). rewrite <- Zle_Qle.
  apply nearest_even_ge.
  apply Qle_shift_div_l; [apply pow2_pos|].
  by rewrite Qmult_0_l.
Qed.

(** Rounding does not cross a power of two from below. *)
Lemma round_below_pow2 (q : Q) (e : Z) :
  (-1074 ≤ e)%Z →
  (0 < q)%Q → (q < Qpower 2 e)%Q → (round q <= Qpower 2 e)%Q.
Proof.
  intros He Hpos Hlt.
  assert (Hq : ¬ (q == 0)%Q) by lra.
  rewrite round_nonzero by done.
  pose proof (binade_below q e Hpos Hlt) as Hb.
  set (p := ulp_exponent q).
  assert (Hp : (p ≤ e)%Z) by (unfold p, ulp_exponent; lia).
  assert (Hgrid : (Qpower 2 e == inject_Z (2 ^ (e - p)) * Qpower 2 p)%Q).
  { rewrite <- pow2_Z by lia. rewrite <- pow2_add. by replace (e - p + p)%Z with e by lia. }
  rewrite Hgrid. apply Qmult_le_r; [apply pow2_pos|].
  rewrite <- Zle_Qle. apply nearest_even_le.
  apply Qle_shift_div_r; [apply pow2_pos|].
  rewrite <- Hgrid. by apply Qlt_le_weak.
Qed.

(** In the binade of 512 the doubles are [2^-43] apart: a product that is
    at most [1008 * (1 - 2^-53)] rounds to a double below 1008. *)
Lemma round_below_1008 (y : Q) :
  (512 <= y)%Q →
  (y <= 1008 * (9007199254740991 # 9007199254740992))%Q →
  (round y < 1008)%Q.
Proof.
  intros Hlo Hhi.
  assert (Hb : binade y = 9%Z).
  { assert (9 ≤ binade y)%Z by (apply binade_from; by change (Qpower 2 9) with 512%Q).
    assert (binade y < 10)%Z; [|lia].
    apply binade_below; [lra|]. change (Qpower 2 10) with 1024%Q. lra. }
  rewrite round_nonzero by lra.
  unfold ulp_exponent. rewrite Hb.
  change (Z.max (9 - 52) (-1074)) with (-43)%Z.
  change (Qpower 2 (-43)) with (1 # 8796093022208)%Q.
  set (N := nearest_even (y / (1 # 8796093022208))).
  assert (HN : (N ≤ 8866461766385664 - 1)%Z).
  { apply nearest_even_below_half.
    apply Qlt_shift_div_r; [done|].
    change (inject_Z (8866461766385664 - 1)) with (8866461766385663 # 1)%Q.
    lra. }
  rewrite Zle_Qle in HN.
  change (inject_Z (8866461766385664 - 1)) with (8866461766385663 # 1)%Q in HN.
  lra.
Qed.

(** A double below 1 is at most [1 - 2^-53]. *)
Lemma double_below_one (x : Q) :
  is_double x = true →
  (x < 1)%Q →
  (x <= 9007199254740991 # 9007199254740992)%Q.
Proof.
  intros Hd Hlt.
  destruct (Qlt_le_dec x (1 # 2)) as [Hsmall|Hbig]; [lra|].
  assert (Hb : binade x = (-1)%Z).
  { assert (-1 ≤ binade x)%Z by (apply binade_from; by change (Qpower 2 (-1)) with (/ 2)%Q).
    assert (binade x < 0)%Z; [|lia].
    apply binade_below; [lra|]. by change (Qpower 2 0) with 1%Q. }
  apply Qeq_bool_iff in Hd. rewrite round_nonzero in Hd by lra.
  unfold ulp_exponent in Hd. rewrite Hb in Hd.
  change (Z.max (-1 - 52) (-1074)) with (-53)%Z in Hd.
  change (Qpower 2 (-53)) with (1 # 9007199254740992)%Q in Hd.
  set (N := nearest_even (x / (1 # 9007199254740992))) in Hd.
  assert (HN : (N < 9007199254740992)%Z).
  { rewrite Zlt_Qlt. change (inject_Z 9007199254740992) with 9007199254740992%Q. lra. }
  assert (HN' : (N ≤ 9007199254740991)%Z) by lia.
  rewrite Zle_Qle in HN'.
  change (inject_Z 9007199254740991) with 9007199254740991%Q in HN'.
  lra.
Qed.

End DoubleFacts.

(** ** Further properties of the service *)

Section MoreServiceFacts.
Import PokemonService Reference Parts Observe.
Context `{Runtime}.

(** X1. With a draw of [Math.random()], a double in [0, 1), the identifier
    that [fetchRandomPokemon] asks for lies between 1 and [TOTAL_POKEMON]:
    the rounding of the product to a double does not reach 1008. *)
Theorem randomId_range (env : lookup_env) :
  Double.is_double (Math_random env) = true →
  (0 <= Math_random env)%Q →
  (Math_random env < 1)%Q →
  (1 ≤ randomId env ≤ TOTAL_POKEMON)%Z.
Proof.
  intros Hd Hlo Hhi. unfold randomId, TOTAL_POKEMON, Double.mul.
  change (inject_Z 1008) with 1008%Q.
  pose proof (double_below_one _ Hd Hhi) as Htop.
  set (y := (Math_random env * 1008)%Q).
  assert (Hy0 : (0 <= y)%Q) by (unfold y; lra).
  assert (Hy1 : (y <= 1008 * (9007199254740991 # 9007199254740992))%Q)
    by (unfold y; lra).
  split.
  - pose proof (Qfloor_resp_le _ _ (round_nonneg y Hy0)) as Hf.
    change (Qfloor 0) with 0%Z in Hf. lia.
  - assert (Hr : (Double.round y < 1008)%Q).
    { destruct (Qlt_le_dec y 512) as [Hsmall|Hbig]; [|by apply round_below_1008].
      destruct (Qeq_dec y 0) as [Hz|Hnz].
      - unfold Double.round. apply Qeq_bool_iff in Hz. by rewrite Hz.
      - apply Qle_lt_trans with 512%Q; [|done].
        change 512%Q with (Qpower 2 9). apply round_below_pow2; [lia|lra|done]. }
    assert (Hlt : (inject_Z (Qfloor (Double.round y)) < inject_Z 1008)%Q).
    { eapply Qle_lt_trans; [apply Qfloor_le|exact Hr]. }
    rewrite <- Zlt_Qlt in Hlt. lia.
Qed.

(** Characters. *)

Lemma upper_hyphen_stable (c : ascii) :
  upper_ascii (hyphen_to_space (upper_ascii (hyphen_to_space c)))
  = upper_ascii (hyphen_to_space c).
Proof. destruct c as [[] [] [] [] [] [] [] []]; reflexivity. Qed.

Lemma hyphen_to_space_stable (c : ascii) :
  hyphen_to_space (hyphen_to_space c) = hyphen_to_space c.
Proof. destruct c as [[] [] [] [] [] [] [] []]; reflexivity. Qed.

Lemma upper_no_hyphen (c : ascii) :
  upper_ascii (hyphen_to_space c) ≠ "-"%char.
Proof. destruct c as [[] [] [] [] [] [] [] []]; discriminate. Qed.

Lemma no_hyphen_left (c : ascii) : hyphen_to_space c ≠ "-"%char.
Proof. destruct c as [[] [] [] [] [] [] [] []]; discriminate. Qed.

Lemma replace_hyphens_stable (s : string) :
  replace_hyphens (replace_hyphens s) = replace_hyphens s.
Proof.
  unfold replace_hyphens.
  induction s as [|c s IH]; cbn [string_map]; [done|].
  by rewrite hyphen_to_space_stable, IH.
Qed.

Lemma capitalized_cons (c : ascii) (s : string) :
  capitalized (String c s)
  = String (upper_ascii (hyphen_to_space c)) (replace_hyphens s).
Proof. reflexivity. Qed.

Lemma capitalize_returns (s : string) :
  capitalizeFirstLetter (VStr s) = Return (capitalized s).
Proof. reflexivity. Qed.

Lemma upper_hyphen_ascii (c : ascii) :
  (N_of_ascii c <? 128)%N = true →
  (N_of_ascii (upper_ascii (hyphen_to_space c)) <? 128)%N = true.
Proof. destruct c as [[] [] [] [] [] [] [] []]; intros Hc; done. Qed.

Lemma hyphen_ascii (c : ascii) :
  (N_of_ascii c <? 128)%N = true →
  (N_of_ascii (hyphen_to_space c) <? 128)%N = true.
Proof. destruct c as [[] [] [] [] [] [] [] []]; intros Hc; done. Qed.

Lemma replace_hyphens_ascii (s : string) :
  ascii_only s = true → ascii_only (replace_hyphens s) = true.
Proof.
  unfold replace_hyphens.
  induction s as [|c s IH]; cbn [string_map ascii_only]; [done|].
  intros [Hc Hs]%andb_prop.
  by rewrite (hyphen_ascii c Hc), (IH Hs).
Qed.

(** X2. On ASCII text the capitalisation gives ASCII text again, on which
    it changes nothing more: it is idempotent; and its result holds no
    hyphen. *)
Theorem capitalizeFirstLetter_idempotent (s : string) :
  ascii_only s = true →
  ∃ r, capitalizeFirstLetter (VStr s) = Return r
       ∧ ascii_only r = true
       ∧ capitalizeFirstLetter (VStr r) = Return r
       ∧ ∀ i, String.get i r ≠ Some "-"%char.
Proof.
  intros Hascii.
  exists (capitalized s). split; [apply capitalize_returns|]. split; [|split].
  - destruct s as [|c s]; [done|].
    rewrite capitalized_cons. cbn [ascii_only] in *.
    apply andb_prop in Hascii as [Hc Hs].
    by rewrite (upper_hyphen_ascii c Hc), (replace_hyphens_ascii s Hs).
  - rewrite capitalize_returns. f_equal. destruct s as [|c s]; [done|].
    rewrite !capitalized_cons. f_equal.
    + apply upper_hyphen_stable.
    + apply replace_hyphens_stable.
  - destruct s as [|c s]; [by intros [|i]|].
    rewrite capitalized_cons. intros [|i]; simpl.
    + intros [= Hc]. by apply upper_no_hyphen in Hc.
    + unfold replace_hyphens. rewrite string_map_get.
      destruct (String.get i s) as [c'|]; simpl; [|done].
      intros [= Hc]. by apply no_hyphen_left in Hc.
Qed.

(** The stat lookup. *)

Lemma find_first_skips (pred : value -> result bool) (skipped rest : list value) :
  Forall (λ v, pred v = Return false) skipped →
  find_first pred (skipped ++ rest) = find_first pred rest.
Proof.
  induction 1 as [|v skipped Hv _ IH]; simpl; [done|]. by rewrite Hv.
Qed.

(** X3. [findStat] is decided by the first element that the test accepts:
    the result is its [base_stat] if that is truthy and 0 otherwise, and
    the elements after it are not looked at, whatever they are. *)
Theorem findStat_first_match (skipped rest : list value) (m b : value)
    (statName : string) :
  Forall (λ v, stat_test statName v = Return false) skipped →
  stat_test statName m = Return true →
  get m "base_stat" = Return b →
  findStat (VArr (skipped ++ m :: rest)) statName
  = Return (if truthy b then b else VNum (Num 0)).
Proof.
  intros Hskip Hm Hb. unfold findStat. simpl.
  change (λ s, result_bind (get s "stat") _) with (stat_test statName).
  rewrite (find_first_skips _ _ _ Hskip). simpl. rewrite Hm. simpl.
  assert (nullish m = false) as ->.
  { destruct m; try done; by simpl in Hb. }
  rewrite Hb. reflexivity.
Qed.

(** X4. An element whose [stat] is [null] or missing, met before any
    element of the name, makes [findStat] throw a [TypeError]; so does a
    [stats] that is not an array. When no element is accepted and none
    throws, the result is 0. *)
Theorem findStat_failures (skipped rest : list value) (bad st : value)
    (statName : string) :
  Forall (λ v, stat_test statName v = Return false) skipped →
  get bad "stat" = Return st →
  nullish st = true →
  (∃ message,
      findStat (VArr (skipped ++ bad :: rest)) statName
      = Throw (TypeError message))
  ∧ findStat (VArr skipped) statName = Return (VNum (Num 0))
  ∧ ∀ stats, (∀ items, stats ≠ VArr items) →
             ∃ message, findStat stats statName = Throw (TypeError message).
Proof.
  intros Hskip Hst Hnull. split; [|split].
  - unfold findStat. simpl.
    change (λ s, result_bind (get s "stat") _) with (stat_test statName).
    rewrite (find_first_skips _ _ _ Hskip). simpl.
    unfold stat_test at 1. rewrite Hst. simpl.
    destruct st; try done; simpl; eauto.
  - unfold findStat. simpl.
    change (λ s, result_bind (get s "stat") _) with (stat_test statName).
    rewrite <- (app_nil_r skipped), (find_first_skips _ _ _ Hskip). reflexivity.
  - intros stats Hstats. unfold findStat.
    destruct stats; simpl; eauto. by destruct (Hstats items).
Qed.

(** The normalisation. *)

Lemma map_each_returns {B} (f : value -> result B) (items : list value)
    (outs : list B) :
  Forall2 (λ v o, f v = Return o) items outs →
  map_each f items = Return outs.
Proof.
  induction 1 as [|v o items outs Hv _ IH]; simpl; [done|].
  by rewrite Hv, IH.
Qed.

Lemma map_each_inv {B} (f : value -> result B) (items : list value)
    (outs : list B) :
  map_each f items = Return outs →
  Forall2 (λ v o, f v = Return o) items outs.
Proof.
  revert outs. induction items as [|v items IH]; simpl; intros outs Hm.
  - injection Hm as <-. constructor.
  - destruct (f v) as [o|] eqn:Hv; [|done]. simpl in Hm.
    destruct (map_each f items) as [os|] eqn:Hos; [|done]. simpl in Hm.
    injection Hm as <-. constructor; [done|]. by apply IH.
Qed.

Lemma findStat_typed (entries : list value) (typed : list (string * Z))
    (statName : string) :
  Forall2 stat_entry entries typed →
  findStat (VArr entries) statName
  = Return (VNum (integer (base_stat_of statName typed))).
Proof.
  intros Hall. unfold findStat. simpl.
  destruct (find_first_stat _ _ statName Hall)
    as (found & -> & [[-> ->]|(nb & Hnb & <-)]); [done|].
  simpl. rewrite (stat_entry_not_nullish _ _ Hnb).
  apply (stat_entry_base _ _ Hnb).
Qed.

(** X5. A body in the API's layout is normalised, field by field: the
    identifier and the species URL as they are, the name and the ability
    names capitalised, the sprite chosen between the two, the type names in
    order, height and weight divided by ten, and the four stats looked up,
    0 for the ones that are missing. *)
Theorem processPokemonData_normalises
    (data i sprites other artwork a d sp u : value) (n : string)
    (ts tnames abs ss : list value) (anames : list string)
    (typed : list (string * Z)) (h w : Q) :
  get data "id" = Return i →
  get data "name" = Return (VStr n) →
  get data "sprites" = Return sprites →
  get sprites "other" = Return other →
  get other "official-artwork" = Return artwork →
  get artwork "front_default" = Return a →
  get sprites "front_default" = Return d →
  get data "types" = Return (VArr ts) →
  Forall2 (λ t name, type_name t = Return name) ts tnames →
  get data "height" = Return (VNum (Num h)) →
  get data "weight" = Return (VNum (Num w)) →
  get data "abilities" = Return (VArr abs) →
  Forall2 ability_entry abs anames →
  get data "stats" = Return (VArr ss) →
  Forall2 stat_entry ss typed →
  get data "species" = Return sp →
  get sp "url" = Return u →
  processPokemonData data
  = Return {| id := i;
              name := capitalized n;
              sprite := if truthy a then a else d;
              types := tnames;
              height := Num (h / 10);
              weight := Num (w / 10);
              abilities := capitalized <$> anames;
              stats := {| hp := VNum (integer (base_stat_of "hp" typed));
                          attack := VNum (integer (base_stat_of "attack" typed));
                          defense := VNum (integer (base_stat_of "defense" typed));
                          speed := VNum (integer (base_stat_of "speed" typed)) |};
              speciesUrl := u |}.
Proof.
  intros Hid Hname Hs Ho Hw Ha Hd Hts Htn Hh Hwt Hab Han Hss Hst Hsp Hu.
  unfold processPokemonData.
  rewrite Hid. cbn [result_bind]. rewrite Hname. cbn [result_bind].
  rewrite capitalize_returns. cbn [result_bind].
  rewrite (sprite_of_selects _ _ _ _ _ _ Hs Ho Hw Ha Hd). cbn [result_bind].
  rewrite Hts. cbn [result_bind call_map].
  rewrite (map_each_returns
             (λ t, result_bind (get t "type") (λ t_type, get t_type "name"))
             _ _ Htn).
  cbn [result_bind].
  rewrite Hh. cbn [result_bind js_div ToNumber].
  rewrite Hwt. cbn [result_bind js_div ToNumber].
  rewrite Hab. cbn [result_bind call_map].
  rewrite (map_each_returns _ abs (capitalized <$> anames)).
  - cbn [result_bind]. rewrite Hss. cbn [result_bind].
    rewrite !(findStat_typed _ _ _ Hst). cbn [result_bind].
    rewrite Hsp. cbn [result_bind]. rewrite Hu. reflexivity.
  - clear -Han. induction Han as [|v o abs anames (ab & Hv & Hn) _ IH];
      [constructor|].
    rewrite fmap_cons. constructor; [|exact IH].
    rewrite Hv. cbn [result_bind]. rewrite Hn. reflexivity.
Qed.

(** X6. When the normalisation returns, the body had what it reads: a
    string for a name, arrays for the types, the abilities and the stats,
    a sprite that could be selected and a species with a [url]; the entity
    has one type and one ability per element of the body, and its
    identifier is the body's, unchecked. *)
Theorem processPokemonData_requires (data : value) (p : pokemon) :
  processPokemonData data = Return p →
  get data "id" = Return (id p)
  ∧ (∃ n, get data "name" = Return (VStr n) ∧ name p = capitalized n)
  ∧ sprite_of data = Return (sprite p)
  ∧ (∃ ts, get data "types" = Return (VArr ts)
           ∧ Forall2 (λ t name, type_name t = Return name) ts (types p))
  ∧ (∃ abs, get data "abilities" = Return (VArr abs)
            ∧ length (abilities p) = length abs)
  ∧ (∃ ss, get data "stats" = Return (VArr ss))
  ∧ (∃ sp, get data "species" = Return sp
           ∧ get sp "url" = Return (speciesUrl p)).
Proof.
  intros Hp. pose proof (processPokemonData_sprite _ _ Hp) as Hsprite.
  unfold processPokemonData in Hp.
  apply result_bind_Return in Hp as (data_id & Hid & Hp).
  apply result_bind_Return in Hp as (data_name & Hname & Hp).
  apply result_bind_Return in Hp as (name' & Hcap & Hp).
  apply result_bind_Return in Hp as (sprite' & _ & Hp).
  apply result_bind_Return in Hp as (data_types & Htypes & Hp).
  apply result_bind_Return in Hp as (types' & Hmap & Hp).
  apply result_bind_Return in Hp as (data_height & _ & Hp).
  apply result_bind_Return in Hp as (height' & _ & Hp).
  apply result_bind_Return in Hp as (data_weight & _ & Hp).
  apply result_bind_Return in Hp as (weight' & _ & Hp).
  apply result_bind_Return in Hp as (data_abilities & Habs & Hp).
  apply result_bind_Return in Hp as (abilities' & Hamap & Hp).
  apply result_bind_Return in Hp as (data_stats & Hstats & Hp).
  apply result_bind_Return in Hp as (hp' & Hhp & Hp).
  apply result_bind_Return in Hp as (attack' & _ & Hp).
  apply result_bind_Return in Hp as (defense' & _ & Hp).
  apply result_bind_Return in Hp as (speed' & _ & Hp).
  apply result_bind_Return in Hp as (data_species & Hspecies & Hp).
  apply result_bind_Return in Hp as (species_url & Hurl & Hp).
  injection Hp as <-. simpl.
  split; [done|]. split; [|split; [done|split; [|split; [|split]]]].
  - destruct data_name as [| | | |n| |]; try done. exists n. split; [done|].
    rewrite capitalize_returns in Hcap. by injection Hcap.
  - destruct data_types as [| | | | |ts|]; try done. exists ts.
    split; [done|]. by apply map_each_inv.
  - destruct data_abilities as [| | | | |abs|]; try done. exists abs.
    split; [done|]. simpl in Hamap. apply map_each_inv in Hamap. symmetry.
    by eapply Forall2_length.
  - destruct data_stats as [| | | | |ss|]; try done. by exists ss.
  - eauto.
Qed.

End MoreServiceFacts.

(** ** Further properties of the batch *)

Section MoreBatchFacts.
Import PokemonService Reference Parts Observe.

Lemma joined_ext {A} (vs : list A) (done done' : list nat)
    (st : @Promise.all_state A) :
  (∀ j, (j < length vs)%nat → j ∈ done ↔ j ∈ done') →
  joined_after vs done st → joined_after vs done' st.
Proof.
  intros Hsame [Hvals Hout]. split; [|done]. rewrite Hvals.
  apply imap_ext. intros j v Hj. simpl.
  rewrite (bool_decide_ext (j ∈ done) (j ∈ done')); [done|].
  apply Hsame. by eapply lookup_lt_Some.
Qed.

(** A settlement, of whatever index and however often. *)
Lemma joined_step_any {A} (vs : list A) (done : list nat)
    (st : @Promise.all_state A) (i : nat) :
  joined_after vs done st →
  joined_after vs (i :: done) (Promise.all_settle (Fulfilled <$> vs) st i).
Proof.
  intros Hst. destruct (decide (i < length vs)%nat) as [Hlt|Hge].
  - destruct (decide (i ∈ done)) as [Hin|Hout].
    + destruct (lookup_lt_is_Some_2 vs i Hlt) as [v Hv].
      unfold Promise.all_settle. rewrite list_lookup_fmap, Hv. simpl.
      destruct Hst as [Hvals Hout]. rewrite Hvals at 1.
      rewrite list_lookup_imap, Hv. simpl. rewrite bool_decide_eq_true_2 by done.
      apply (joined_ext vs done); [|done].
      intros j _. rewrite elem_of_cons. split; [by right|by intros [->|?]].
    + by apply joined_step.
  - unfold Promise.all_settle. rewrite list_lookup_fmap.
    rewrite (lookup_ge_None_2 vs i) by lia. simpl.
    apply (joined_ext vs done); [|done].
    intros j Hj. rewrite elem_of_cons. split; [by right|].
    intros [->|?]; [lia|done].
Qed.

Lemma joined_run_any {A} (vs : list A) (schedule : list nat) :
  ∀ seen (st : @Promise.all_state A),
    joined_after vs seen st →
    joined_after vs (reverse schedule ++ seen)
      (foldl (Promise.all_settle (Fulfilled <$> vs)) st schedule).
Proof.
  induction schedule as [|i schedule IH]; intros seen st Hst; simpl; [done|].
  rewrite reverse_cons, <- app_assoc. simpl. apply IH.
  by apply joined_step_any.
Qed.

(** [Promise.all] stays pending while a promise has not settled. *)
Lemma all_pending {A} (vs : list A) (schedule : list nat) (j : nat) :
  (j < length vs)%nat →
  j ∉ schedule →
  Promise.all (Fulfilled <$> vs) schedule = None.
Proof.
  intros Hj Hout. unfold Promise.all.
  destruct (joined_run_any vs schedule [] _ (joined_start vs)) as [Hvals Hres].
  rewrite Hres. apply (resolved_hole _ j).
  destruct (lookup_lt_is_Some_2 vs j Hj) as [v Hv].
  rewrite Hvals, list_lookup_imap, Hv. simpl.
  rewrite bool_decide_eq_false_2; [done|].
  by rewrite app_nil_r, elem_of_reverse.
Qed.

Context `{Runtime}.

(** X7. While one of the lookups has not settled, the batch is pending: it
    does not resolve with the results that are in, whatever the others did
    and however often they are reported. *)
Theorem fetchMultiple_pending (N : Z) (world : nat -> lookup_env)
    (schedule : list nat) (j : nat) :
  (Z.of_nat j < N)%Z →
  j ∉ schedule →
  fetchMultipleRandomPokemon N world schedule = None.
Proof.
  intros Hj Hout. unfold fetchMultipleRandomPokemon.
  rewrite push_requests_spec by lia. simpl.
  replace (Z.to_nat (N - Z.of_nat 0)) with (Z.to_nat N) by lia.
  destruct (requests_fulfilled (world <$> seq 0 (Z.to_nat N))) as [vs Hvs].
  rewrite <- list_fmap_compose in Hvs.
  change (fetchRandomPokemon ∘ world) with (λ j, fetchRandomPokemon (world j)) in Hvs.
  rewrite Hvs.
  assert (Hlen : length vs = Z.to_nat N).
  { apply (f_equal length) in Hvs. by rewrite !length_fmap, length_seq in Hvs. }
  rewrite (all_pending vs schedule j); [done|lia|done].
Qed.

(** X8. With a count of zero or less the loop pushes no promise, however
    long it is let run: the array given to [Promise.all] is empty, and the
    batch resolves with the empty array, whatever is reported to it. *)
Theorem fetchMultiple_no_requests (N : Z) (world : nat -> lookup_env)
    (schedule : list nat) :
  (N ≤ 0)%Z →
  (∀ fuel, push_requests fuel world N 0 [] = Some [])
  ∧ fetchMultipleRandomPokemon N world schedule = Some (Fulfilled []).
Proof.
  intros HN. split.
  { intros fuel. rewrite push_requests_spec by lia.
    by replace (Z.to_nat (N - Z.of_nat 0)) with 0%nat by lia. }
  unfold fetchMultipleRandomPokemon.
  rewrite push_requests_spec by lia. simpl.
  replace (Z.to_nat (N - Z.of_nat 0)) with 0%nat by lia. simpl.
  change (@nil (settled (option pokemon)))
    with (Fulfilled <$> (@nil (option pokemon))).
  unfold Promise.all.
  destruct (joined_run_any (@nil (option pokemon)) schedule [] _ (joined_start []))
    as [Hvals Hres].
  rewrite Hres, Hvals. reflexivity.
Qed.

End MoreBatchFacts.

(** ** Further properties of the page *)

Section MoreTreeFacts.
Import DOM Parts Observe.
Implicit Types (el : element) (p q : list nat) (f g : element -> element).

Lemma alter_at_compose f g p el :
  alter_at f p (alter_at g p el) = alter_at (f ∘ g) p el.
Proof.
  revert el. induction p as [|i p IH]; intros el; simpl; [done|].
  unfold set_children. simpl. f_equal.
  rewrite list_alter_alter_eq. apply list_alter_ext; [|done].
  intros c _. apply IH.
Qed.

Lemma update_compose f g (r : ref) (page : element) :
  update f r (update g r page) = update (f ∘ g) r page.
Proof. apply alter_at_compose. Qed.

Lemma alter_at_ext f g p el :
  (∀ e, f e = g e) → alter_at f p el = alter_at g p el.
Proof.
  intros Hfg. revert el. induction p as [|i p IH]; intros el; simpl; [done|].
  f_equal. apply list_alter_ext; [|done]. intros c _. apply IH.
Qed.

(** A mutation leaves alone every element that is neither at, nor above,
    nor below the mutated position. *)
Lemma descend_alter_apart f p q el :
  ¬ p `prefix_of` q →
  ¬ q `prefix_of` p →
  descend q (alter_at f p el) = descend q el.
Proof.
  revert q el. induction p as [|i p IH]; intros [|j q] el Hpq Hqp; simpl.
  - destruct Hpq. done.
  - destruct Hpq. apply prefix_nil.
  - destruct Hqp. apply prefix_nil.
  - destruct (decide (i = j)) as [<-|Hij].
    + rewrite list_lookup_alter_eq.
      destruct (children el !! i) as [c|]; simpl; [|done].
      apply IH; intros Hpre; [apply Hpq|apply Hqp]; by apply prefix_cons.
    + by rewrite list_lookup_alter_ne.
Qed.

Lemma deref_update_apart f (r q : ref) (page : element) :
  apart q r →
  deref (update f r page) q = deref page q.
Proof.
  intros [Hqr Hrq]. apply descend_alter_apart.
  - intros Hpre. apply Hrq. by apply suffix_prefix_reverse.
  - intros Hpre. apply Hqr. by apply suffix_prefix_reverse.
Qed.

Lemma deref_inside (page : element) (r : ref) p :
  deref page (reverse p ++ r) = deref page r ≫= descend p.
Proof.
  unfold deref. by rewrite reverse_app, reverse_involutive, descend_app.
Qed.

(** [querySelector] answers with a descendant that carries the class. *)
Lemma first_with_class_valid (class : string) el :
  ∀ p, first_with_class class el = Some p →
       p ≠ [] ∧ ∃ e, descend p el = Some e ∧ contains class e = true.
Proof.
  induction el as [tag cl ds pr tx cs IH] using element_children_ind.
  intros p. simpl.
  set (scan := fix scan (cs : list element) (i : nat) : option (list nat) :=
         match cs with
         | [] => None
         | c :: rest =>
             if contains class c then Some [i]
             else match first_with_class class c with
                  | Some p => Some (i :: p)
                  | None => scan rest (S i)
                  end
         end).
  assert (Hscan : ∀ rest pre,
    Forall (λ c, ∀ p, first_with_class class c = Some p →
                      p ≠ [] ∧ ∃ e, descend p c = Some e ∧ contains class e = true)
      rest →
    scan rest (length pre) = Some p →
    p ≠ [] ∧ ∃ e, (match p with
                   | [] => Some (Element tag cl ds pr tx (pre ++ rest))
                   | i :: p' => (pre ++ rest) !! i ≫= descend p'
                   end) = Some e ∧ contains class e = true).
  { induction rest as [|c rest IHrest]; intros pre Hall; simpl; [done|].
    apply Forall_cons in Hall as [Hc Hrest].
    destruct (contains class c) eqn:Hcls.
    - intros [= <-]. split; [done|]. exists c.
      rewrite list_lookup_middle by done. done.
    - destruct (first_with_class class c) as [p'|] eqn:Hp'.
      + intros [= <-]. split; [done|].
        destruct (Hc p' eq_refl) as (_ & e & He & Hcl). exists e.
        rewrite list_lookup_middle by done. done.
      + intros Hnext.
        specialize (IHrest (pre ++ [c]) Hrest).
        rewrite length_app, Nat.add_1_r in IHrest. specialize (IHrest Hnext).
        by rewrite <- app_assoc in IHrest. }
  intros Hp. destruct (Hscan cs [] IH Hp) as (Hne & e & He & Hcl).
  split; [done|]. exists e. split; [|done].
  destruct p as [|i p']; [done|]. exact He.
Qed.

(** What [querySelector] finds does not depend on the data of the element. *)
Lemma first_with_class_set_dataset (class k v : string) el :
  first_with_class class (set_dataset k v el) = first_with_class class el.
Proof. by destruct el. Qed.

End MoreTreeFacts.

(** ** Further properties of the card controller *)

Section MoreControllerFacts.
Import DOM PokemonService App Reference Parts Observe.
Context `{Runtime}.
Implicit Types (st : app_state) (r q c card target : ref).

Lemma deref_parent (page : element) (i : nat) r :
  is_Some (deref page (i :: r)) → is_Some (deref page r).
Proof.
  rewrite deref_child. destruct (deref page r); [eauto|]. by intros [? ?].
Qed.

Lemma suffix_cons_cases (q l : list nat) (i : nat) :
  q `suffix_of` i :: l → q = i :: l ∨ q `suffix_of` l.
Proof.
  destruct q as [|j q]; [right; apply suffix_nil|apply suffix_cons_inv].
Qed.

(** X9. The walk of [handleCardClick] from an element of the page never
    throws; it stops at the target or at one of its ancestors, the nearest
    that has the class [card], and finds none only if the target and all
    its ancestors lack the class. *)
Theorem nearest_card_nearest st target :
  is_Some (deref (page st) target) →
  ∃ found, nearest_card (page st) target = Return found
    ∧ match found with
      | Some c =>
          c `suffix_of` target
          ∧ contains "card" <$> deref (page st) c = Some true
          ∧ ∀ q, q `suffix_of` target → below q c →
                 contains "card" <$> deref (page st) q = Some false
      | None =>
          ∀ q, q `suffix_of` target →
               contains "card" <$> deref (page st) q = Some false
      end.
Proof.
  generalize (page st). intros page.
  induction target as [|i target IH]; intros [el Hel]; cbn [nearest_card];
    rewrite Hel; destruct (contains "card" el) eqn:Hcard.
  - eexists. split; [done|]. split; [done|]. split; [by rewrite Hel; simpl; f_equal|].
    intros q Hq [Hc Hne]. destruct Hne. by apply (anti_symm suffix).
  - eexists. split; [done|]. intros q Hq%suffix_nil_inv. subst.
    rewrite Hel. simpl. by f_equal.
  - eexists. split; [done|]. split; [done|]. split; [by rewrite Hel; simpl; f_equal|].
    intros q Hq [Hc Hne]. destruct Hne. by apply (anti_symm suffix).
  - destruct IH as (found & -> & Hfound); [by eapply deref_parent|].
    exists found. split; [done|]. destruct found as [c|].
    + destruct Hfound as (Hsuf & Hc & Hbetween).
      split; [by apply suffix_cons_r|]. split; [done|].
      intros q Hq Hbelow. apply suffix_cons_cases in Hq as [->|Hq].
      * rewrite Hel. simpl. by f_equal.
      * by apply Hbetween.
    + intros q Hq. apply suffix_cons_cases in Hq as [->|Hq].
      * rewrite Hel. simpl. by f_equal.
      * by apply Hfound.
Qed.

(** X10. A click that reaches a card flips the revealed flag of that card
    and of no other element, and changes nothing else: every other class
    of every element, every dataset, text and attribute, the array of cards
    and the listeners are as before. *)
Theorem click_flips_one st target c :
  nearest_card (page st) target = Return (Some c) →
  let st' := (handleCardClick target st).2 in
  (∀ q, revealed st' q = (if decide (c = q) then negb else λ b, b) <$> revealed st q)
  ∧ (∀ q (token : string), token ≠ "flipped" →
       contains token <$> deref (page st') q
       = contains token <$> deref (page st) q)
  ∧ (∀ q, (λ e, (tagName e, dataset e, properties e, textContent e))
            <$> deref (page st') q
          = (λ e, (tagName e, dataset e, properties e, textContent e))
              <$> deref (page st) q)
  ∧ cards st' = cards st
  ∧ listeners st' = listeners st.
Proof.
  intros Hhit st'. unfold st'. rewrite (click_hit _ _ _ Hhit). cbn [snd].
  split; [apply revealed_toggled|]. split; [|split; [|done]].
  - intros q token Htoken. cbn [page set_page].
    rewrite (deref_update_shallow (contains token));
      [|done|apply children_toggle].
    case_decide; [|done].
    destruct (deref (page st) q); simpl; [|done].
    f_equal. by apply contains_toggle_other.
  - intros q. cbn [page set_page].
    rewrite (deref_update_shallow
               (λ e, (tagName e, dataset e, properties e, textContent e)));
      [|done|apply children_toggle].
    case_decide; [|done].
    destruct (deref (page st) q) as [e|]; simpl; [|done].
    f_equal. unfold classList_toggle, classList_add.
    by destruct (contains "flipped" e).
Qed.

(** Running statements. *)

Lemma bind_returns {A B} (m : M A) (k : A -> M B) st (a : A) st1 :
  m st = (Return a, st1) → bind m k st = k a st1.
Proof. intros Hm. unfold bind. by rewrite Hm. Qed.

Lemma bind_throws {A B} (m : M A) (k : A -> M B) st (e : exn) st1 :
  m st = (Throw e, st1) → bind m k st = (Throw e, st1).
Proof. intros Hm. unfold bind. by rewrite Hm. Qed.

Lemma mutate_at r (f : element -> element) (e : element) st :
  deref (page st) r = Some e →
  mutate r f st = (Return tt, set_page (update f r (page st)) st).
Proof. intros He. by rewrite mutate_run, He. Qed.

Lemma querySelector_at r (class : string) (e : element) st :
  deref (page st) r = Some e →
  querySelector r class st
  = (Return ((λ p, reverse p ++ r) <$> first_with_class class e), st).
Proof. intros He. unfold querySelector, bind, read, ret. by rewrite He. Qed.

Lemma card_back_not_above card (path : list nat) :
  path ≠ [] → ¬ (reverse path ++ card) `suffix_of` card.
Proof.
  intros Hne Hsuf. apply suffix_length in Hsuf.
  rewrite length_app, length_reverse in Hsuf.
  destruct path; [done|]. simpl in Hsuf. lia.
Qed.

(** The binding on a card that has a card back, with an entity that can be
    rendered: the state it ends in. *)
Lemma assign_run card (pokemon : pokemon) (el : element) (path : list nat)
    (src : string) (typesDiv : element) st :
  deref (page st) card = Some el →
  first_with_class "card-back" el = Some path →
  ToString (sprite pokemon) = Return src →
  add_type_badges (types pokemon) empty_typesDiv = Return typesDiv →
  assignPokemonToCard (Some card) (Some pokemon) st
  = (Return tt,
     set_page
       (update (rendered_back pokemon src typesDiv) (reverse path ++ card)
          (update (set_dataset "pokemon" (bound_json pokemon)) card (page st)))
       st).
Proof.
  intros Hel Hpath Hsrc Htd.
  destruct (first_with_class_valid _ _ _ Hpath) as (Hne & back & Hback & _).
  set (D := set_dataset "pokemon" (bound_json pokemon)).
  set (cb := reverse path ++ card).
  set (page1 := update D card (page st)).
  assert (Hcard1 : deref page1 card = Some (D el)).
  { unfold page1. by rewrite deref_update_same, Hel. }
  assert (Hcb1 : deref page1 cb = Some back).
  { unfold page1, cb. rewrite deref_update_aside;
      [|done|by apply card_back_not_above].
    by rewrite deref_inside, Hel. }
  unfold assignPokemonToCard. cbv zeta.
  rewrite (bind_returns _ _ st tt (set_page page1 st));
    [|by apply (mutate_at _ _ el)].
  rewrite (bind_returns _ _ _ (Some cb) (set_page page1 st)).
  2:{ rewrite (querySelector_at _ _ (D el)) by done.
      unfold D. by rewrite first_with_class_set_dataset, Hpath. }
  rewrite (bind_returns _ _ _ cb (set_page page1 st)) by done.
  rewrite (bind_returns _ _ _ tt
             (set_page (update clear_innerHTML cb page1) (set_page page1 st)));
    [|by apply (mutate_at _ _ back)].
  rewrite (bind_returns _ _ _ src _) by (by unfold lift; rewrite Hsrc).
  erewrite bind_returns.
  2:{ apply (attach_run _ _ (clear_innerHTML back)).
      cbn [page set_page]. by rewrite deref_update_same, Hcb1. }
  erewrite bind_returns.
  2:{ apply attach_run. cbn [page set_page].
      by rewrite !deref_update_same, Hcb1. }
  rewrite (bind_returns _ _ _ typesDiv _)
    by (unfold lift; f_equal; exact Htd).
  erewrite bind_returns.
  2:{ apply attach_run. cbn [page set_page].
      by rewrite !deref_update_same, Hcb1. }
  erewrite bind_returns.
  2:{ apply attach_run. cbn [page set_page].
      by rewrite !deref_update_same, Hcb1. }
  unfold ret. f_equal. cbn [page set_page].
  rewrite !update_compose. reflexivity.
Qed.

Lemma suffix_total (q r l : list nat) :
  q `suffix_of` l → r `suffix_of` l → q `suffix_of` r ∨ r `suffix_of` q.
Proof.
  rewrite !suffix_prefix_reverse. apply prefix_weak_total.
Qed.

(** A position apart from a card is apart from what is inside the card. *)
Lemma apart_inside q card (path : list nat) :
  apart q card → apart q (reverse path ++ card).
Proof.
  intros [Hqc Hcq]. split.
  - intros Hq.
    destruct (suffix_total q card (reverse path ++ card)); auto.
    by apply suffix_app_r.
  - intros Hq. apply Hcq. etrans; [|exact Hq]. by apply suffix_app_r.
Qed.

Lemma rendered_back_keeps (pokemon : pokemon) (src : string)
    (typesDiv e : element) :
  classList (rendered_back pokemon src typesDiv e) = classList e
  ∧ dataset (rendered_back pokemon src typesDiv e) = dataset e
  ∧ children (rendered_back pokemon src typesDiv e)
    = [imgWrapper_of src pokemon; name_h2_of pokemon; typesDiv;
       statsText_of pokemon]
  ∧ textContent (rendered_back pokemon src typesDiv e) = "".
Proof. done. Qed.

(** X11. Binding an entity that can be rendered to a card that has a card
    back returns without error; the card's dataset then holds the entity's
    JSON text, the card back holds exactly the image, the name, the type
    badges and the statistics of this entity, whatever it held before, and
    every element that is neither the card, nor inside it, nor above it is
    as it was. *)
Theorem assign_renders card (pokemon : pokemon) (el : element)
    (path : list nat) (src : string) (typesDiv : element) st :
  deref (page st) card = Some el →
  first_with_class "card-back" el = Some path →
  ToString (sprite pokemon) = Return src →
  add_type_badges (types pokemon) empty_typesDiv = Return typesDiv →
  let run := assignPokemonToCard (Some card) (Some pokemon) st in
  run.1 = Return tt
  ∧ bound_entity run.2 card = Some (Some (bound_json pokemon))
  ∧ children <$> deref (page run.2) (reverse path ++ card)
    = Some [imgWrapper_of src pokemon; name_h2_of pokemon; typesDiv;
            statsText_of pokemon]
  ∧ ∀ q, apart q card → deref (page run.2) q = deref (page st) q.
Proof.
  intros Hel Hpath Hsrc Htd run. unfold run.
  rewrite (assign_run _ _ _ _ _ _ _ Hel Hpath Hsrc Htd). cbn [fst snd].
  destruct (first_with_class_valid _ _ _ Hpath) as (Hne & back & Hback & _).
  split; [done|]. split; [|split].
  - unfold bound_entity. cbn [page set_page].
    rewrite (deref_update_above (λ e, dataset e !! "pokemon")); [|done|done|].
    + rewrite deref_update_same, Hel. simpl. by rewrite lookup_insert_eq.
    + intros [Hsuf _]. by apply (card_back_not_above card path).
  - cbn [page set_page]. rewrite deref_update_same.
    rewrite deref_update_aside; [|done|by apply card_back_not_above].
    by rewrite deref_inside, Hel; simpl; rewrite Hback.
  - intros q Hq. cbn [page set_page].
    rewrite deref_update_apart by (by apply apart_inside).
    by rewrite deref_update_apart.
Qed.

(** X12. On a card without a card back the binding throws a [TypeError],
    and by then it has written the entity into the card's dataset: the
    failure leaves a card that is bound but not rendered. *)
Theorem assign_without_back card (pokemon : pokemon) (el : element) st :
  deref (page st) card = Some el →
  first_with_class "card-back" el = None →
  let run := assignPokemonToCard (Some card) (Some pokemon) st in
  (∃ message, run.1 = Throw (TypeError message))
  ∧ bound_entity run.2 card = Some (Some (bound_json pokemon))
  ∧ ∀ q, q ≠ card →
         bound_entity run.2 q = bound_entity st q.
Proof.
  intros Hel Hnone run. unfold run, assignPokemonToCard.
  set (D := set_dataset "pokemon" (bound_json pokemon)).
  set (page1 := update D card (page st)).
  rewrite (bind_returns _ _ st tt (set_page page1 st));
    [|by apply (mutate_at _ _ el)].
  rewrite (bind_returns _ _ _ None (set_page page1 st)).
  2:{ rewrite (querySelector_at _ _ (D el)).
      - unfold D. by rewrite first_with_class_set_dataset, Hnone.
      - cbn [page set_page]. unfold page1. by rewrite deref_update_same, Hel. }
  erewrite bind_throws by done. cbn [fst snd].
  split; [eauto|]. unfold bound_entity. cbn [page set_page]. unfold page1. split.
  - rewrite deref_update_same, Hel. simpl. by rewrite lookup_insert_eq.
  - intros q Hq.
    rewrite (deref_update_shallow (λ e, dataset e !! "pokemon")) by done.
    by rewrite decide_False.
Qed.

(** The load. *)

Lemma for_upto_app (body : nat -> M unit) :
  ∀ a b i st,
    for_upto (a + b) i body st
    = bind (for_upto a i body) (λ _, for_upto b (i + a) body) st.
Proof.
  induction a as [|a IH]; intros b i st; simpl.
  - unfold bind, ret. by rewrite Nat.add_0_r.
  - unfold bind at 1 2 3. destruct (body i st) as [[[]|e] st1]; [|done].
    rewrite IH. unfold bind. by rewrite Nat.add_succ_r.
Qed.

Lemma assign_batch_loop (l : list (option pokemon)) st :
  assign_batch (Fulfilled l) st
  = try_catch_M (for_upto (length (cards st)) 0 (assign_slot l))
      (λ _, ret tt) st.
Proof. reflexivity. Qed.

(** X13. A binding that throws ends the load: the cards after it are not
    visited, the state is the one the failing binding left, and the
    exception is caught, so that [fetchAndAssignPokemon] returns normally. *)
Theorem load_stops_at_throw (l : list (option pokemon)) (k : nat) (e : exn)
    st st1 st2 :
  (k < length (cards st))%nat →
  for_upto k 0 (assign_slot l) st = (Return tt, st1) →
  assign_slot l k st1 = (Throw e, st2) →
  assign_batch (Fulfilled l) st = (Return tt, st2).
Proof.
  intros Hk Hbefore Hthrow. rewrite assign_batch_loop.
  replace (length (cards st)) with (k + S (length (cards st) - S k))%nat by lia.
  unfold try_catch_M. rewrite for_upto_app.
  rewrite (bind_returns _ _ _ tt st1 Hbefore). simpl.
  by rewrite (bind_throws _ _ _ e st2 Hthrow).
Qed.

Lemma first_with_class_placeholder (i : nat) :
  first_with_class "card-back" (createCardElement i) = Some [0; 1]%nat.
Proof. reflexivity. Qed.

Lemma apart_siblings (i k : nat) (G : ref) : i ≠ k → apart (i :: G) (k :: G).
Proof.
  intros Hik. split; intros Hsuf; apply suffix_cons_cases in Hsuf as [Heq|Hsuf];
    try congruence; by apply suffix_cons_not in Hsuf.
Qed.

(** One iteration of the load on a grid of cards. *)
Lemma loaded_step (l : list (option pokemon)) G Sp (k : nat) st :
  wired G Sp st →
  ¬ G `suffix_of` Sp →
  (∀ i pokemon, l !! i = Some (Some pokemon) → renderable pokemon) →
  (k < CARD_COUNT)%nat →
  loaded_upto l G k st →
  ∃ st', assign_slot l k st = (Return tt, st')
         ∧ wired G Sp st' ∧ loaded_upto l G (S k) st'.
Proof.
  intros Hw Hapart Hrender Hk [Hcards Hslots].
  assert (Hcard : cards st !! k = Some (k :: G)).
  { by rewrite Hcards, list_lookup_fmap, lookup_seq_lt. }
  unfold assign_slot. rewrite (bind_returns _ _ st (Some (k :: G)) st)
    by exact (f_equal (λ c : option ref, (Return c, st)) Hcard).
  destruct (mjoin (l !! k)) as [pokemon|] eqn:Hlk.
  - destruct (Hslots k Hk) as (e & He & Hcl & Hbound). rewrite Hlk in Hbound.
    rewrite decide_False in Hbound by lia. subst e.
    assert (Hl : l !! k = Some (Some pokemon)).
    { destruct (l !! k) as [[?|]|]; simpl in Hlk; congruence. }
    destruct (Hrender k pokemon Hl) as [[src Hsrc] [typesDiv Htd]].
    pose proof (assign_run (k :: G) pokemon _ _ src typesDiv st He
                  (first_with_class_placeholder k) Hsrc Htd) as Hrun.
    eexists. split; [exact Hrun|].
    set (cb := reverse [0; 1]%nat ++ k :: G) in *.
    set (D := set_dataset "pokemon" (bound_json pokemon)) in *.
    set (R := rendered_back pokemon src typesDiv) in *.
    assert (Hnot_below : ∀ q, ¬ (k :: G) `suffix_of` q → ¬ below q cb).
    { intros q Hq [Hsuf _]. apply Hq. etrans; [|exact Hsuf].
      by apply suffix_app_r. }
    assert (Hvalid : ∀ q, ¬ (k :: G) `suffix_of` q →
      is_Some (deref (page st) q) →
      is_Some (deref (update R cb (update D (k :: G) (page st))) q)).
    { intros q Hq Hsome.
      apply deref_update_valid_above; [by apply Hnot_below|].
      apply deref_update_valid_shallow; done. }
    destruct Hw as (HG & HS & Hg & Hs).
    split.
    + repeat split; [done..| |]; cbn [page set_page]; apply Hvalid; try done.
      * apply suffix_cons_not.
      * intros Hsuf. apply Hapart. etrans; [|exact Hsuf]. by apply suffix_cons_r.
    + split; [done|]. intros i Hi. cbn [page set_page].
      destruct (decide (i = k)) as [->|Hik].
      * assert (Hself : ¬ below (k :: G) cb).
        { intros [Hsuf _]. by apply (card_back_not_above (k :: G) [0; 1]%nat). }
        assert (is_Some (deref (update R cb (update D (k :: G) (page st)))
                           (k :: G))) as [e' He'].
        { apply deref_update_valid_above; [exact Hself|].
          apply deref_update_valid_shallow; [done|eauto]. }
        exists e'. split; [done|].
        assert (Hcl' : classList <$> deref (update R cb (update D (k :: G) (page st)))
                                   (k :: G) = Some ["card"]).
        { rewrite (deref_update_above classList); [|done|done|done].
          by rewrite deref_update_same, He. }
        assert (Hds' : (λ e, dataset e !! "pokemon")
                         <$> deref (update R cb (update D (k :: G) (page st)))
                               (k :: G)
                       = Some (Some (bound_json pokemon))).
        { rewrite (deref_update_above (λ e, dataset e !! "pokemon"));
            [|done|done|done].
          rewrite deref_update_same, He. simpl. by rewrite lookup_insert_eq. }
        rewrite He' in Hcl', Hds'. simpl in Hcl', Hds'.
        injection Hcl' as Hcl'. injection Hds' as Hds'.
        split; [done|]. rewrite Hlk. by rewrite decide_True by lia.
      * destruct (Hslots i Hi) as (e & He' & Hcl' & Hbound).
        exists e. split.
        { rewrite deref_update_apart
            by (by apply apart_inside, apart_siblings).
          by rewrite deref_update_apart by (by apply apart_siblings). }
        split; [done|].
        destruct (mjoin (l !! i)); [|done].
        destruct (decide (i < k)%nat), (decide (i < S k)%nat); try done; lia.
  - exists st. split; [done|]. split; [done|]. split; [done|].
    intros i Hi. destruct (Hslots i Hi) as (e & He & Hcl & Hbound).
    exists e. split; [done|]. split; [done|].
    destruct (mjoin (l !! i)) as [pokemon|] eqn:Hli; [|done].
    destruct (decide (i < k)%nat), (decide (i < S k)%nat); try done; try lia.
    assert (i = k) as -> by lia. congruence.
Qed.

Lemma loaded_loop (l : list (option pokemon)) G Sp :
  ¬ G `suffix_of` Sp →
  (∀ i pokemon, l !! i = Some (Some pokemon) → renderable pokemon) →
  ∀ n k st,
    (k + n ≤ CARD_COUNT)%nat →
    wired G Sp st →
    loaded_upto l G k st →
    ∃ st', for_upto n k (assign_slot l) st = (Return tt, st')
           ∧ wired G Sp st' ∧ loaded_upto l G (k + n) st'.
Proof.
  intros Hapart Hrender. induction n as [|n IH]; intros k st Hkn Hw Hl; simpl.
  - exists st. by rewrite Nat.add_0_r.
  - destruct (loaded_step l G Sp k st Hw Hapart Hrender ltac:(lia) Hl)
      as (st1 & Hrun & Hw1 & Hl1).
    destruct (IH (S k) st1 ltac:(lia) Hw1 Hl1) as (st2 & Hrun2 & Hw2 & Hl2).
    exists st2. split; [|split; [done|]].
    + by rewrite (bind_returns _ _ _ tt st1 Hrun).
    + by replace (k + S n)%nat with (S k + n)%nat by lia.
Qed.

(** The end of [initApp] on any grid: the cards are left as they are. *)
Lemma reveal_any G Sp st :
  wired G Sp st →
  ¬ G `suffix_of` Sp →
  ∃ st', (setupEventListeners ;;;
          hideLoading ;;;
          grid <-- (fun st => (Return (cardGrid st), st)) ;;
          mutate grid (classList_remove "hidden")) st
         = (Return tt, st')
         ∧ populated st'
         ∧ cards st' = cards st
         ∧ cardGrid st' = G
         ∧ (G, "click") ∈ listeners st'
         ∧ ∀ i : nat, deref (page st') (i :: G) = deref (page st) (i :: G).
Proof.
  intros Hw Hapart.
  destruct (setupEventListeners st) as [r1 st1] eqn:Hsetup.
  assert (Hst1 : r1 = Return tt ∧ page st1 = page st ∧ cards st1 = cards st
                 ∧ cardGrid st1 = cardGrid st
                 ∧ loadingSpinner st1 = loadingSpinner st
                 ∧ (cardGrid st, "click") ∈ listeners st1).
  { unfold setupEventListeners in Hsetup. injection Hsetup as <- <-.
    case_bool_decide; [done|]. repeat split. simpl.
    apply elem_of_app. right. left. }
  destruct Hst1 as (-> & Hpage1 & Hcards1 & HG1 & HS1 & Hlisten).
  assert (Hw1 : wired G Sp st1).
  { destruct Hw as (HG & HS & Hg & Hs).
    repeat split; [congruence..| |]; by rewrite Hpage1. }
  destruct (mutate_wired G Sp Sp (classList_add "hidden") st1 Hw1)
    as [Hrun2 Hw2]; [by right|apply children_add|].
  set (st2 := set_page (update (classList_add "hidden") Sp (page st1)) st1) in *.
  destruct (mutate_wired G Sp G (classList_remove "hidden") st2 Hw2)
    as [Hrun3 Hw3]; [by left|done|].
  set (st3 := set_page (update (classList_remove "hidden") G (page st2)) st2) in *.
  pose proof Hw1 as (_ & HSp1 & [g Hg] & [s Hs]).
  assert (HGS : G ≠ Sp) by (by intros ->).
  exists st3. split; [|split; [|split; [|split; [by destruct Hw3|split]]]].
  - rewrite (bind_returns _ _ _ tt st1 Hsetup).
    unfold hideLoading.
    rewrite (bind_returns _ _ st1 tt st2).
    2:{ rewrite (bind_returns _ _ st1 Sp st1) by (by rewrite HSp1). exact Hrun2. }
    rewrite (bind_returns _ _ st2 G st2); [exact Hrun3|].
    by destruct Hw2 as (-> & _).
  - destruct Hw3 as (HG3 & HS3 & _ & _). unfold populated.
    rewrite HG3, HS3. unfold st3. cbn [page set_page]. split.
    + rewrite (deref_update_shallow (contains "hidden")) by done.
      rewrite decide_False by done.
      unfold st2. cbn [page set_page].
      rewrite deref_update_same, Hs. simpl. f_equal. apply contains_add_same.
    + rewrite deref_update_same.
      destruct Hw2 as (_ & _ & [g2 Hg2] & _). rewrite Hg2. simpl.
      f_equal. apply contains_remove_same.
  - by rewrite <- Hcards1.
  - destruct Hw as (HG & _). by rewrite <- HG.
  - intros i. unfold st3, st2. cbn [page set_page].
    rewrite deref_update_aside; [|done|apply suffix_cons_not].
    rewrite deref_update_aside; [|apply children_add|].
    + by rewrite Hpage1.
    + intros Hsuf. apply Hapart. etrans; [|exact Hsuf]. by apply suffix_cons_r.
Qed.

Lemma placeholders_loaded (l : list (option pokemon)) G st :
  placeholders G CARD_COUNT st → loaded_upto l G 0 st.
Proof.
  intros Hp. pose proof Hp as [Hcards _]. split; [done|].
  intros i Hi. destruct (placeholders_card G CARD_COUNT i st Hp Hi) as [_ He].
  exists (createCardElement i). split; [done|]. split; [done|].
  by destruct (mjoin (l !! i)).
Qed.

(** The start of [initApp], up to the load. *)
Lemma boot_run st :
  is_Some (deref (page st) (cardGrid st)) →
  is_Some (deref (page st) (loadingSpinner st)) →
  ¬ cardGrid st `suffix_of` loadingSpinner st →
  ∃ st', (showLoading ;;;
          grid <-- (fun st => (Return (cardGrid st), st)) ;;
          mutate grid (classList_add "hidden") ;;;
          createCardElements) st
         = (Return tt, st')
         ∧ wired (cardGrid st) (loadingSpinner st) st'
         ∧ placeholders (cardGrid st) CARD_COUNT st'.
Proof.
  intros Hg Hs Hapart.
  set (G := cardGrid st) in *. set (Sp := loadingSpinner st) in *.
  assert (Hw : wired G Sp st) by done.
  destruct (mutate_wired G Sp Sp (classList_remove "hidden") st Hw)
    as [Hrun1 Hw1]; [by right|done|].
  set (st1 := set_page (update (classList_remove "hidden") Sp (page st)) st) in *.
  destruct (mutate_wired G Sp G (classList_add "hidden") st1 Hw1)
    as [Hrun2 Hw2]; [by left|apply children_add|].
  set (st2 := set_page (update (classList_add "hidden") G (page st1)) st1) in *.
  destruct (createCardElements_run G Sp st2 Hw2 Hapart) as (st3 & Hrun3 & Hw3 & Hp3).
  exists st3. split; [|done].
  unfold showLoading.
  rewrite (bind_returns _ _ st tt st1).
  2:{ by rewrite (bind_returns _ _ st Sp st). }
  rewrite (bind_returns _ _ st1 G st1) by done.
  by rewrite (bind_returns _ _ st1 tt st2).
Qed.

(** X14. From a page that has the grid and the spinner, the spinner not
    inside the grid, a start-up whose batch holds entities that can be
    rendered completes without error in the populated state, with the click
    listener on the grid and twelve slots: slot [i] is bound to the JSON
    text of entry [i] of the batch when that entry is an entity, and is
    unbound when it is [null] or past the end of the batch; no slot is
    revealed. *)
Theorem initApp_binds st (world : nat -> lookup_env) (schedule : list nat)
    (l : list (option pokemon)) :
  is_Some (deref (page st) (cardGrid st)) →
  is_Some (deref (page st) (loadingSpinner st)) →
  ¬ cardGrid st `suffix_of` loadingSpinner st →
  fetchMultipleRandomPokemon (Z.of_nat CARD_COUNT) world schedule
  = Some (Fulfilled l) →
  (∀ i pokemon, l !! i = Some (Some pokemon) → renderable pokemon) →
  ∃ st', initApp world schedule st = Some (Return tt, st')
         ∧ populated st'
         ∧ length (cards st') = 12%nat
         ∧ (cardGrid st', "click") ∈ listeners st'
         ∧ ∀ i, (i < 12)%nat →
             slot_entity st' i = Some (bound_json <$> mjoin (l !! i))
             ∧ slot_revealed st' i = Some false.
Proof.
  intros Hg Hs Hapart Hbatch Hrender.
  destruct (boot_run st Hg Hs Hapart) as (st3 & Hrun3 & Hw3 & Hp3).
  set (G := cardGrid st) in *. set (Sp := loadingSpinner st) in *.
  pose proof (placeholders_loaded l G st3 Hp3) as Hl3.
  assert (Hlen3 : length (cards st3) = CARD_COUNT).
  { destruct Hl3 as [-> _]. by rewrite length_fmap, length_seq. }
  destruct (loaded_loop l G Sp Hapart Hrender CARD_COUNT 0 st3 ltac:(done) Hw3 Hl3)
    as (st4 & Hrun4 & Hw4 & Hl4).
  destruct (reveal_any G Sp st4 Hw4 Hapart)
    as (st5 & Hrun5 & Hpop & Hcards5 & HG5 & Hlisten & Hderef5).
  destruct Hl4 as [Hcards4 Hslots4].
  exists st5. split; [|split; [done|split; [|split]]].
  - unfold initApp. rewrite Hrun3.
    unfold fetchAndAssignPokemon. rewrite Hbatch. simpl.
    rewrite assign_batch_loop. unfold try_catch_M. rewrite Hlen3, Hrun4.
    simpl. by rewrite Hrun5.
  - by rewrite Hcards5, Hcards4, length_fmap, length_seq.
  - by rewrite HG5.
  - intros i Hi.
    assert (Hci : cards st5 !! i = Some (i :: G)).
    { by rewrite Hcards5, Hcards4, list_lookup_fmap, lookup_seq_lt. }
    rewrite (slot_entity_at st5 i (i :: G) Hci).
    rewrite (slot_revealed_at st5 i (i :: G) Hci).
    unfold bound_entity, revealed. rewrite Hderef5.
    destruct (Hslots4 i Hi) as (e & -> & Hcl & Hbound). simpl.
    split.
    + f_equal. destruct (mjoin (l !! i)) as [pokemon|]; simpl.
      * by rewrite decide_True in Hbound by done.
      * subst e. apply placeholder_unbound.
    + f_equal. unfold contains. rewrite Hcl. reflexivity.
Qed.

(** Dealing the cards. *)

Lemma alter_at_id (f : element -> element) (p : list nat) (el : element) :
  (∀ e, f e = e) → alter_at f p el = el.
Proof.
  intros Hf. revert el. induction p as [|i p IH]; intros el; simpl; [done|].
  rewrite list_alter_id by done. by destruct el.
Qed.

Lemma deal_loop (G : ref) :
  ∀ n k st (e : element),
    deref (page st) G = Some e →
    length (children e) = k →
    for_upto n k (deal_card G) st
    = (Return tt,
       set_cards (cards st ++ ((λ i, i :: G) <$> seq k n))
         (set_page
            (update (λ e, set_children
                            (children e ++ (createCardElement <$> seq k n)) e)
               G (page st))
            st)).
Proof.
  induction n as [|n IH]; intros k st e He Hlen.
  - simpl. unfold ret. f_equal. unfold update.
    rewrite alter_at_id.
    + destruct st. unfold set_cards, set_page. simpl. by rewrite app_nil_r.
    + intros e'. rewrite app_nil_r. by destruct e'.
  - cbn [for_upto].
    rewrite (bind_returns _ _ st tt
               (set_cards (cards st ++ [k :: G])
                  (set_page (update (appendChild (createCardElement k)) G (page st))
                     st))).
    2:{ unfold deal_card.
        rewrite (bind_returns _ _ st (k :: G)
                   (set_page (update (appendChild (createCardElement k)) G
                                (page st)) st)); [done|].
        rewrite (attach_run _ _ e) by done. by rewrite Hlen. }
    rewrite (IH (S k) _ (appendChild (createCardElement k) e)).
    + f_equal. unfold set_cards, set_page. cbn [page cards cardGrid
        loadingSpinner listeners]. f_equal.
      * rewrite update_compose. apply alter_at_ext. intros e'.
        destruct e'. unfold appendChild, set_children. simpl.
        by rewrite <- app_assoc.
      * by rewrite <- app_assoc.
    + cbn [page set_cards set_page]. by rewrite deref_update_same, He.
    + unfold appendChild. cbn [children set_children].
      rewrite length_app. simpl. lia.
Qed.

Lemma createCardElements_state st (g : element) :
  deref (page st) (cardGrid st) = Some g →
  createCardElements st
  = (Return tt,
     set_cards ((λ i, i :: cardGrid st) <$> seq 0 CARD_COUNT)
       (set_page (update dealt_grid (cardGrid st) (page st)) st)).
Proof.
  intros Hg. unfold createCardElements.
  rewrite (bind_returns _ _ st (cardGrid st) st) by done.
  rewrite (bind_returns _ _ st tt
             (set_page (update clear_innerHTML (cardGrid st) (page st)) st))
    by (by apply (mutate_at _ _ g)).
  rewrite (bind_returns _ _ _ tt
             (set_cards []
                (set_page (update clear_innerHTML (cardGrid st) (page st)) st)))
    by done.
  change (for_upto CARD_COUNT 0 _) with (for_upto CARD_COUNT 0 (deal_card (cardGrid st))).
  rewrite (deal_loop _ _ _ _ (clear_innerHTML g)).
  - f_equal. unfold set_cards, set_page. cbn [page cards cardGrid
      loadingSpinner listeners]. f_equal.
    rewrite update_compose. apply alter_at_ext. by intros [].
  - cbn [page set_cards set_page]. by rewrite deref_update_same, Hg.
  - done.
Qed.

Lemma dealt_grid_again (e : element) : dealt_grid (dealt_grid e) = dealt_grid e.
Proof. by destruct e. Qed.

(** X16. [createCardElements] replaces whatever the grid held by the
    twelve placeholder cards, in order, and whatever [cards] held by the
    references to them; elements that are neither the grid, nor inside it,
    nor above it are as they were, and running it again changes nothing. *)
Theorem createCardElements_resets st (g : element) :
  deref (page st) (cardGrid st) = Some g →
  ∃ st', createCardElements st = (Return tt, st')
         ∧ cards st' = (λ i, i :: cardGrid st) <$> seq 0 CARD_COUNT
         ∧ children <$> deref (page st') (cardGrid st)
           = Some (createCardElement <$> seq 0 CARD_COUNT)
         ∧ (∀ i, (i < CARD_COUNT)%nat →
              deref (page st') (i :: cardGrid st) = Some (createCardElement i))
         ∧ (∀ q, apart q (cardGrid st) → deref (page st') q = deref (page st) q)
         ∧ createCardElements st' = (Return tt, st').
Proof.
  intros Hg. eexists. split; [by apply (createCardElements_state st g)|].
  cbn [cards page set_cards set_page].
  assert (Hgrid : deref (update dealt_grid (cardGrid st) (page st)) (cardGrid st)
                  = Some (dealt_grid g)).
  { by rewrite deref_update_same, Hg. }
  split; [done|]. split; [by rewrite Hgrid|]. split; [|split].
  - intros i Hi. rewrite deref_child, Hgrid.
    change ((createCardElement <$> seq 0 CARD_COUNT) !! i
            = Some (createCardElement i)).
    by rewrite list_lookup_fmap, lookup_seq_lt.
  - intros q Hq. by apply deref_update_apart.
  - rewrite (createCardElements_state _ (dealt_grid g)) by done.
    f_equal. unfold set_cards, set_page. cbn [page cards cardGrid
      loadingSpinner listeners]. f_equal.
    rewrite update_compose. apply alter_at_ext. intros e.
    apply dealt_grid_again.
Qed.



(** X17. [hideLoading] leaves the spinner with the class [hidden] and
    [showLoading] leaves it without, whatever its classes were; neither
    throws, and neither changes any other class of the spinner or any class
    of another element. *)
Theorem loading_indicator st :
  is_Some (deref (page st) (loadingSpinner st)) →
  let shown := showLoading st in
  let hidden := hideLoading st in
  shown.1 = Return tt ∧ hidden.1 = Return tt
  ∧ contains "hidden" <$> deref (page shown.2) (loadingSpinner st) = Some false
  ∧ contains "hidden" <$> deref (page hidden.2) (loadingSpinner st) = Some true
  ∧ ∀ q (token : string), q ≠ loadingSpinner st ∨ token ≠ "hidden" →
      contains token <$> deref (page shown.2) q
      = contains token <$> deref (page st) q
      ∧ contains token <$> deref (page hidden.2) q
        = contains token <$> deref (page st) q.
Proof.
  intros [s Hs] shown hidden. unfold shown, hidden, showLoading, hideLoading.
  rewrite !(bind_returns _ _ st (loadingSpinner st) st) by done.
  rewrite !(mutate_at _ _ s) by done. cbn [fst snd page set_page].
  split; [done|]. split; [done|]. split; [|split].
  - rewrite deref_update_same, Hs. simpl. f_equal. apply contains_remove_same.
  - rewrite deref_update_same, Hs. simpl. f_equal. apply contains_add_same.
  - intros q token Hother.
    rewrite !(deref_update_shallow (contains token));
      [|done|apply children_add|done|done].
    destruct (decide (loadingSpinner st = q)) as [<-|Hq]; [|done].
    destruct Hother as [|Htoken]; [done|].
    rewrite Hs. simpl. split; f_equal.
    + by apply contains_remove_other.
    + by apply contains_add_other.
Qed.

End MoreControllerFacts.

(** ** The further properties at concrete inputs *)

Section MoreRuns.
Import DOM PokemonService App Reference Observe Samples Parts MoreSamples.

Ltac evaluated := apply (bool_decide_unpack _); vm_compute; exact I.

(** The draw 0.3333333333333333: the exact product lies below 336, the
    double nearest to it is 336, and the identifier is 337. *)
Lemma randomId_range_witness :
  Double.is_double (Math_random empty_body) = true
  ∧ (0 <= Math_random empty_body)%Q
  ∧ (Math_random empty_body < 1)%Q
  ∧ (1 ≤ @randomId empty_body ≤ TOTAL_POKEMON)%Z
  ∧ Qfloor (Math_random empty_body * inject_Z TOTAL_POKEMON) = 335%Z
  ∧ @randomId empty_body = 337%Z.
Proof.
  split; [by vm_compute|]. split; [by compute|]. split; [by compute|].
  split; [|split; by vm_compute].
  apply randomId_range; [by vm_compute|by compute|by compute].
Defined.

(** "ho-oh" gives "Ho oh", which the capitalisation leaves as it is. *)
Lemma capitalizeFirstLetter_idempotent_witness :
  ascii_only "ho-oh" = true
  ∧ ∃ r, capitalizeFirstLetter (VStr "ho-oh") = Return r
         ∧ r = "Ho oh"
         ∧ capitalizeFirstLetter (VStr r) = Return r.
Proof.
  split; [reflexivity|].
  destruct (capitalizeFirstLetter_idempotent "ho-oh" eq_refl)
    as (r & Hr & _ & Hagain & _).
  exists r. split; [exact Hr|]. split; [|exact Hagain].
  assert (Hrun : capitalizeFirstLetter (VStr "ho-oh") = Return "Ho oh")
    by reflexivity.
  congruence.
Defined.

Lemma findStat_first_match_witness :
  Forall (λ v, stat_test "speed" v = Return false) [stat_json "hp" 45]
  ∧ stat_test "speed" (stat_json "speed" 90) = Return true
  ∧ get (stat_json "speed" 90) "base_stat" = Return (VNum (integer 90))
  ∧ findStat (VArr damaged_stats) "speed" = Return (VNum (integer 90)).
Proof.
  split; [by repeat constructor|]. split; [reflexivity|]. split; [reflexivity|].
  apply (findStat_first_match [stat_json "hp" 45] [VNull]
           (stat_json "speed" 90) (VNum (integer 90)) "speed");
    [by repeat constructor|reflexivity|reflexivity].
Defined.

Lemma findStat_failures_witness :
  Forall (λ v, stat_test "speed" v = Return false) [stat_json "hp" 45]
  ∧ get (VObj []) "stat" = Return VUndefined
  ∧ nullish VUndefined = true
  ∧ ∃ message,
      findStat (VArr [stat_json "hp" 45; VObj []; stat_json "speed" 90]) "speed"
      = Throw (TypeError message).
Proof.
  split; [by repeat constructor|]. split; [reflexivity|]. split; [reflexivity|].
  destruct (findStat_failures [stat_json "hp" 45] [stat_json "speed" 90]
              (VObj []) VUndefined "speed") as [Hthrow _];
    [by repeat constructor|reflexivity|reflexivity|exact Hthrow].
Defined.

Lemma processPokemonData_normalises_witness :
  @processPokemonData sample_host bulbasaur = Return bulbasaur_pokemon.
Proof.
  apply (@processPokemonData_normalises sample_host bulbasaur
           (VNum (integer 1))
           (sprites_json (Some (VStr "https://img.example/artwork/1.png"))
                         (Some (VStr "https://img.example/1.png")))
           (VObj [("official-artwork",
                   VObj [("front_default",
                          VStr "https://img.example/artwork/1.png")])])
           (VObj [("front_default", VStr "https://img.example/artwork/1.png")])
           (VStr "https://img.example/artwork/1.png")
           (VStr "https://img.example/1.png")
           (VObj [("name", VStr "bulbasaur");
                  ("url", VStr "https://pokeapi.co/api/v2/pokemon-species/1/")])
           (VStr "https://pokeapi.co/api/v2/pokemon-species/1/")
           "bulbasaur"
           [VObj [("slot", VNum (integer 1));
                  ("type", VObj [("name", VStr "grass")])];
            VObj [("slot", VNum (integer 2));
                  ("type", VObj [("name", VStr "poison")])]]
           [VStr "grass"; VStr "poison"]
           [VObj [("ability", VObj [("name", VStr "overgrow")])];
            VObj [("ability", VObj [("name", VStr "chlorophyll")])]]
           [stat_json "hp" 45; stat_json "attack" 49;
            stat_json "defense" 49; stat_json "speed" 45]
           ["overgrow"; "chlorophyll"]
           [("hp", 45); ("attack", 49); ("defense", 49); ("speed", 45)]
           (inject_Z 7) (inject_Z 69));
    try reflexivity;
    repeat constructor; eexists; repeat split.
Defined.

Lemma processPokemonData_requires_witness :
  @processPokemonData sample_host bulbasaur = Return bulbasaur_pokemon
  ∧ get bulbasaur "id" = Return (id bulbasaur_pokemon)
  ∧ ∃ n, get bulbasaur "name" = Return (VStr n)
         ∧ name bulbasaur_pokemon = capitalized n.
Proof.
  assert (Hp : @processPokemonData sample_host bulbasaur
               = Return bulbasaur_pokemon) by reflexivity.
  split; [exact Hp|].
  destruct (@processPokemonData_requires sample_host _ _ Hp)
    as (Hid & Hname & _).
  split; [exact Hid|exact Hname].
Defined.

Lemma fetchMultiple_pending_witness :
  (Z.of_nat 1 < 3)%Z
  ∧ (1%nat ∉ [0; 2]%nat)
  ∧ @fetchMultipleRandomPokemon sample_host 3 mixed_world [0; 2]%nat = None.
Proof.
  split; [lia|]. split; [evaluated|].
  apply (@fetchMultiple_pending sample_host 3 mixed_world [0; 2]%nat 1);
    [lia|evaluated].
Defined.

Lemma fetchMultiple_no_requests_witness :
  (-2 ≤ 0)%Z
  ∧ @push_requests sample_host 5 mixed_world (-2) 0 [] = Some []
  ∧ @fetchMultipleRandomPokemon sample_host (-2) mixed_world [0; 1]%nat
    = Some (Fulfilled []).
Proof.
  split; [lia|].
  destruct (@fetchMultiple_no_requests sample_host (-2) mixed_world [0; 1]%nat)
    as [Hnone Hbatch]; [lia|].
  split; [exact (Hnone 5%nat)|exact Hbatch].
Defined.

Lemma nearest_card_nearest_witness :
  is_Some (deref (page dealt) first_card_image)
  ∧ ∃ found, nearest_card (page dealt) first_card_image = Return found
             ∧ found = Some first_card.
Proof.
  assert (Hvalid : is_Some (deref (page dealt) first_card_image))
    by (by eexists).
  split; [exact Hvalid|].
  destruct (nearest_card_nearest dealt first_card_image Hvalid)
    as (found & Hfound & _).
  exists found. split; [exact Hfound|].
  assert (Hrun : nearest_card (page dealt) first_card_image
                 = Return (Some first_card)) by reflexivity.
  congruence.
Defined.

Lemma click_flips_one_witness :
  nearest_card (page dealt) first_card_image = Return (Some first_card)
  ∧ revealed (handleCardClick first_card_image dealt).2 first_card = Some true
  ∧ revealed (handleCardClick first_card_image dealt).2 [1; 1]%nat = Some false.
Proof.
  split; [reflexivity|].
  destruct (click_flips_one dealt first_card_image first_card eq_refl)
    as (Hflip & _).
  split; rewrite Hflip; reflexivity.
Defined.

Lemma assign_renders_witness :
  deref (page dealt) first_card = Some (@createCardElement sample_host 0)
  ∧ first_with_class "card-back" (@createCardElement sample_host 0)
    = Some [0; 1]%nat
  ∧ @ToString sample_host (sprite bulbasaur_pokemon)
    = Return "https://img.example/artwork/1.png"
  ∧ @add_type_badges sample_host (types bulbasaur_pokemon) empty_typesDiv
    = Return bulbasaur_badges
  ∧ bound_entity
      (@assignPokemonToCard sample_host (Some first_card)
         (Some bulbasaur_pokemon) dealt).2 first_card
    = Some (Some (@bound_json sample_host bulbasaur_pokemon)).
Proof.
  do 4 (split; [reflexivity|]).
  apply (@assign_renders sample_host first_card bulbasaur_pokemon
           (@createCardElement sample_host 0) [0; 1]%nat
           "https://img.example/artwork/1.png" bulbasaur_badges dealt);
    reflexivity.
Defined.

Lemma assign_without_back_witness :
  deref (page bare) [0; 1]%nat = Some (Element "div" ["card"] ∅ ∅ "" [])
  ∧ first_with_class "card-back" (Element "div" ["card"] ∅ ∅ "" []) = None
  ∧ (∃ message,
        (@assignPokemonToCard sample_host (Some [0; 1]%nat)
           (Some bulbasaur_pokemon) bare).1 = Throw (TypeError message))
  ∧ bound_entity
      (@assignPokemonToCard sample_host (Some [0; 1]%nat)
         (Some bulbasaur_pokemon) bare).2 [0; 1]%nat
    = Some (Some (@bound_json sample_host bulbasaur_pokemon)).
Proof.
  do 2 (split; [reflexivity|]).
  destruct (@assign_without_back sample_host [0; 1]%nat bulbasaur_pokemon
              (Element "div" ["card"] ∅ ∅ "" []) bare eq_refl eq_refl)
    as (Hthrow & Hbound & _).
  split; [exact Hthrow|exact Hbound].
Defined.

(** Three cards of which the second has no card back, and three entities:
    the first card is bound, the second keeps the record written before
    the throw, and the third is not visited. *)
Lemma load_stops_at_throw_witness :
  let l := replicate 3 (Some bulbasaur_pokemon) in
  let st1 := (for_upto 1 0 (@assign_slot sample_host l) torn).2 in
  let st2 := (@assign_slot sample_host l 1 st1).2 in
  (1 < length (cards torn))%nat
  ∧ for_upto 1 0 (@assign_slot sample_host l) torn = (Return tt, st1)
  ∧ @assign_slot sample_host l 1 st1
    = (Throw (TypeError "Cannot set properties of null (setting 'innerHTML')"),
       st2)
  ∧ @assign_batch sample_host (Fulfilled l) torn = (Return tt, st2)
  ∧ slot_entity st2 0 = Some (Some (@bound_json sample_host bulbasaur_pokemon))
  ∧ slot_entity st2 1 = Some (Some (@bound_json sample_host bulbasaur_pokemon))
  ∧ slot_entity st2 2 = Some None
  ∧ deref (page st2) [2; 1]%nat = Some (@createCardElement sample_host 2).
Proof.
  cbv zeta.
  split; [evaluated|].
  split; [vm_compute; reflexivity|]. split; [vm_compute; reflexivity|].
  split; [|repeat split; vm_compute; reflexivity].
  apply (@load_stops_at_throw sample_host (replicate 3 (Some bulbasaur_pokemon))
           1 (TypeError "Cannot set properties of null (setting 'innerHTML')")
           torn
           (for_upto 1 0 (@assign_slot sample_host
                            (replicate 3 (Some bulbasaur_pokemon))) torn).2);
    [evaluated|vm_compute; reflexivity|vm_compute; reflexivity].
Defined.

Lemma initApp_binds_witness :
  is_Some (deref (page blank) (cardGrid blank))
  ∧ is_Some (deref (page blank) (loadingSpinner blank))
  ∧ ¬ cardGrid blank `suffix_of` loadingSpinner blank
  ∧ @fetchMultipleRandomPokemon sample_host (Z.of_nat CARD_COUNT)
      (λ _, online bulbasaur) (seq 0 12)
    = Some (Fulfilled (replicate 12 (Some bulbasaur_pokemon)))
  ∧ ∃ st', @initApp sample_host (λ _, online bulbasaur) (seq 0 12) blank
           = Some (Return tt, st')
           ∧ slot_entity st' 0
             = Some (Some (@bound_json sample_host bulbasaur_pokemon)).
Proof.
  assert (Hg : is_Some (deref (page blank) (cardGrid blank))) by (by eexists).
  assert (Hs : is_Some (deref (page blank) (loadingSpinner blank))) by (by eexists).
  assert (Hapart : ¬ cardGrid blank `suffix_of` loadingSpinner blank)
    by evaluated.
  assert (Hbatch : @fetchMultipleRandomPokemon sample_host (Z.of_nat CARD_COUNT)
                     (λ _, online bulbasaur) (seq 0 12)
                   = Some (Fulfilled (replicate 12 (Some bulbasaur_pokemon))))
    by (vm_compute; reflexivity).
  do 4 (split; [assumption|]).
  destruct (@initApp_binds sample_host blank (λ _, online bulbasaur) (seq 0 12)
              (replicate 12 (Some bulbasaur_pokemon)) Hg Hs Hapart Hbatch)
    as (st' & Hrun & _ & _ & _ & Hslots).
  - intros i pokemon Hi. apply lookup_replicate_1 in Hi as [[= ->] _].
    split; eexists; reflexivity.
  - exists st'. split; [exact Hrun|].
    destruct (Hslots 0%nat) as [Hentity _]; [lia|]. exact Hentity.
Defined.


Lemma createCardElements_resets_witness :
  deref (page dealt) (cardGrid dealt)
  = Some (Element "div" ["card-grid"] ∅ ∅ ""
            [@createCardElement sample_host 0; @createCardElement sample_host 1])
  ∧ ∃ st', @createCardElements sample_host dealt = (Return tt, st')
           ∧ length (cards st') = 12%nat.
Proof.
  split; [reflexivity|].
  destruct (@createCardElements_resets sample_host dealt _ eq_refl)
    as (st' & Hrun & Hcards & _).
  exists st'. split; [exact Hrun|].
  by rewrite Hcards, length_fmap, length_seq.
Defined.

Lemma loading_indicator_witness :
  is_Some (deref (page blank) (loadingSpinner blank))
  ∧ contains "hidden"
      <$> deref (page (hideLoading blank).2) (loadingSpinner blank)
    = Some true.
Proof.
  assert (Hs : is_Some (deref (page blank) (loadingSpinner blank))) by (by eexists).
  split; [exact Hs|].
  by destruct (loading_indicator blank Hs) as (_ & _ & _ & Hhidden & _).
Defined.

End MoreRuns.
